(** * Dutch coalition builder: the browser client (static/js/main.js)

    A shallow embedding of the client-side logic: the constraint lists
    (exclusions and inclusions), the party-count range check, the seat
    counter of the current selection, the roster renderers and the
    conversion between spectrum coordinates and container pixels.

    Conventions of the embedding:
    - party names and dropdown values are [string]s; JavaScript compares
      strings by code unit, [String.compare] compares them by character code;
    - seat counts and the results of [parseInt] are integers ([Z]), with
      [NaN] made explicit where the source can produce it;
    - coordinates and pixels are written once over an arithmetic interface
      ([JsArith]) and read either exactly (rationals, [Q]) or as the
      engine executes them (IEEE-754 binary64, [PrimFloat.float]);
    - a function that touches the page returns the new state together with
      the list of effects it performed, in order. *)

From Stdlib Require Import ZArith QArith Qminmax Qround Qabs Lia Lqa.
From Stdlib Require Import List String Ascii Bool Permutation Sorted.
From Stdlib Require PrimFloat Uint63.
Import ListNotations.

Local Open Scope string_scope.
Local Open Scope list_scope.
Local Open Scope Z_scope.

(** ** JavaScript built-ins used by the source *)

Module Js.

(** [!s] on a string: true exactly for the empty string. *)
Definition falsy (s : string) : bool :=
  match s with EmptyString => true | String _ _ => false end.

(** [Array.prototype.join]. *)
Fixpoint join (sep : string) (l : list string) : string :=
  match l with
  | [] => ""
  | [x] => x
  | x :: xs => (x ++ sep ++ join sep xs)%string
  end.

(** [Array.prototype.includes]. *)
Definition includes (l : list string) (x : string) : bool :=
  existsb (String.eqb x) l.

(** [Array.prototype.some]. *)
Definition some {A : Type} (f : A -> bool) (l : list A) : bool := existsb f l.

(** [Array.prototype.sort] with the default comparator, as a stable
    insertion sort on the code-unit order. *)
Fixpoint insert (x : string) (l : list string) : list string :=
  match l with
  | [] => [x]
  | y :: ys => if String.leb x y then x :: l else y :: insert x ys
  end.

Definition sort (l : list string) : list string := fold_right insert [] l.

(** [a.splice(index, 1)]: a negative start counts from the end, a start
    past the end removes nothing. *)
Definition splice1 {A : Type} (l : list A) (index : Z) : list A :=
  let len := Z.of_nat (List.length l) in
  let start := if index <? 0 then Z.max (len + index) 0 else Z.min index len in
  firstn (Z.to_nat start) l ++ skipn (S (Z.to_nat start)) l.

(** The value of [parseInt] on the content of a number field. *)
Inductive number : Type :=
| NaN
| Num (z : Z).

(** [a > b]: false as soon as one side is [NaN]. *)
Definition gt (a b : number) : bool :=
  match a, b with
  | Num x, Num y => y <? x
  | _, _ => false
  end.

End Js.

(** ** Arithmetic of coordinates *)

Class JsArith (num : Type) : Type := {
  lit : Z -> num;                 (* an integer literal of the source *)
  add : num -> num -> num;
  sub : num -> num -> num;
  mul : num -> num -> num;
  div : num -> num -> num;
  neg : num -> num;
  math_max : num -> num -> num;
  math_min : num -> num -> num
}.

(** Exact arithmetic. *)
#[export] Instance Q_arith : JsArith Q := {
  lit := inject_Z;
  add := Qplus;
  sub := Qminus;
  mul := Qmult;
  div := Qdiv;
  neg := Qopp;
  math_max := Qmax;
  math_min := Qmin
}.

(** IEEE-754 binary64, the arithmetic the engine runs. *)
Module Binary64.
Import PrimFloat.

(** Integer literals of the source are small and non-negative or their
    negation; they are exact in binary64. *)
Definition of_Z (z : Z) : float :=
  match z with
  | Z0 => PrimFloat.zero
  | Zpos _ => PrimFloat.of_uint63 (Uint63.of_Z z)
  | Zneg _ => PrimFloat.opp (PrimFloat.of_uint63 (Uint63.of_Z (Z.opp z)))
  end.

(** [Math.max]: [NaN] if an argument is [NaN], and [+0] above [-0]. *)
Definition max (a b : float) : float :=
  if PrimFloat.is_nan a then a
  else if PrimFloat.is_nan b then b
  else if PrimFloat.ltb a b then b
  else if PrimFloat.ltb b a then a
  else if PrimFloat.get_sign a then b else a.

(** [Math.min]: [NaN] if an argument is [NaN], and [-0] below [+0]. *)
Definition min (a b : float) : float :=
  if PrimFloat.is_nan a then a
  else if PrimFloat.is_nan b then b
  else if PrimFloat.ltb a b then a
  else if PrimFloat.ltb b a then b
  else if PrimFloat.get_sign a then a else b.

#[export] Instance float_arith : JsArith float := {
  lit := of_Z;
  add := PrimFloat.add;
  sub := PrimFloat.sub;
  mul := PrimFloat.mul;
  div := PrimFloat.div;
  neg := PrimFloat.opp;
  math_max := max;
  math_min := min
}.
End Binary64.

(** ** Data model *)

(** An entry of the roster as the server sends it. *)
Record Party : Type := mkParty {
  name : string;
  seats : Z;
  economic : Q;
  social : Q
}.

(** An exclusion or inclusion: the array of party names. *)
Definition Constraint : Type := list string.

(** [getBoundingClientRect()] of the spectrum container. *)
Record Rect (num : Type) : Type := mkRect {
  left : num;
  top : num;
  width : num;
  height : num
}.
Arguments mkRect {num}.
Arguments left {num}.
Arguments top {num}.
Arguments width {num}.
Arguments height {num}.

(** The global [dragState]. *)
Record DragState : Type := mkDrag {
  isDragging : bool;
  dragParty : option Party;
  containerRect : option (Rect Q)
}.

(** The form controls the functions read and write; a number field is
    represented by what [parseInt] returns on its content. *)
Record Form : Type := mkForm {
  exclude_party1 : string;
  exclude_party2 : string;
  include_party1 : string;
  include_party2 : string;
  min_parties : Js.number;
  max_parties : Js.number;
  poll_dropdown : string
}.

(** The module-level variables together with the parts of the page the
    functions read: the form, the [data-party] of the checked party
    checkboxes in document order, and the [offsetWidth] and [offsetHeight]
    of the spectrum container. *)
Record App : Type := mkApp {
  parties : list Party;
  exclusions : list Constraint;
  inclusions : list Constraint;
  dragState : DragState;
  form : Form;
  checked : list string;
  offsetWidth : Q;
  offsetHeight : Q
}.

Definition set_parties (ps : list Party) (s : App) : App :=
  mkApp ps (exclusions s) (inclusions s) (dragState s) (form s)
        (checked s) (offsetWidth s) (offsetHeight s).
Definition set_exclusions (l : list Constraint) (s : App) : App :=
  mkApp (parties s) l (inclusions s) (dragState s) (form s)
        (checked s) (offsetWidth s) (offsetHeight s).
Definition set_inclusions (l : list Constraint) (s : App) : App :=
  mkApp (parties s) (exclusions s) l (dragState s) (form s)
        (checked s) (offsetWidth s) (offsetHeight s).
Definition set_dragState (d : DragState) (s : App) : App :=
  mkApp (parties s) (exclusions s) (inclusions s) d (form s)
        (checked s) (offsetWidth s) (offsetHeight s).
Definition set_form (f : Form) (s : App) : App :=
  mkApp (parties s) (exclusions s) (inclusions s) (dragState s) f
        (checked s) (offsetWidth s) (offsetHeight s).
Definition set_checked (c : list string) (s : App) : App :=
  mkApp (parties s) (exclusions s) (inclusions s) (dragState s) (form s)
        c (offsetWidth s) (offsetHeight s).

Definition set_exclude_fields (p1 p2 : string) (f : Form) : Form :=
  mkForm p1 p2 (include_party1 f) (include_party2 f)
         (min_parties f) (max_parties f) (poll_dropdown f).
Definition set_include_fields (p1 p2 : string) (f : Form) : Form :=
  mkForm (exclude_party1 f) (exclude_party2 f) p1 p2
         (min_parties f) (max_parties f) (poll_dropdown f).
Definition set_min_parties (v : Js.number) (f : Form) : Form :=
  mkForm (exclude_party1 f) (exclude_party2 f)
         (include_party1 f) (include_party2 f)
         v (max_parties f) (poll_dropdown f).

(** ** Coordinates and pixels *)

Declare Scope js_scope.
Delimit Scope js_scope with js.
Notation "a + b" := (add a b) : js_scope.
Notation "a - b" := (sub a b) : js_scope.
Notation "a * b" := (mul a b) : js_scope.
Notation "a / b" := (div a b) : js_scope.
Notation "- a" := (neg a) : js_scope.

Section Coordinates.
Context {num : Type} `{JsArith num}.
Local Open Scope js_scope.

(** [const padding = 50], in [updateSpectrum], [handleMouseMove] and
    [handleMouseUp]. *)
Definition padding : num := lit 50.

(** [updateSpectrum], the position of a party: from the [-1, 1] range to
    the container. *)
Definition spectrumPosition (containerWidth containerHeight : num)
           (economic social : num) : num * num :=
  let usableWidth := containerWidth - (padding * lit 2) in
  let usableHeight := containerHeight - (padding * lit 2) in
  let x := padding + ((economic + lit 1) / lit 2) * usableWidth in
  let y := padding + ((- social + lit 1) / lit 2) * usableHeight in
  (x, y).

(** [handleMouseUp], the final position: the release point relative to the
    container, constrained, then converted back to the [-1, 1] range. *)
Definition releasePosition (containerRect : Rect num)
           (clientX clientY : num) : num * num :=
  let mouseX := clientX - left containerRect in
  let mouseY := clientY - top containerRect in
  let constrainedX :=
    math_max padding (math_min (width containerRect - padding) mouseX) in
  let constrainedY :=
    math_max padding (math_min (height containerRect - padding) mouseY) in
  let usableWidth := width containerRect - (padding * lit 2) in
  let usableHeight := height containerRect - (padding * lit 2) in
  let economic := ((constrainedX - padding) / usableWidth) * lit 2 - lit 1 in
  let social := - (((constrainedY - padding) / usableHeight) * lit 2 - lit 1) in
  (economic, social).

End Coordinates.

(** ** What the functions render and request *)

(** A row of the party table: the two text cells and the checkbox. *)
Record TableRow : Type := mkRow {
  cell_name : string;
  cell_seats : Z;
  checkbox_party : string
}.

(** An [<option>] of a dropdown. *)
Record OptionEl : Type := mkOption {
  value : string;
  text : string
}.

(** The options of the four constraint dropdowns. *)
Record Dropdowns : Type := mkDropdowns {
  exclude1_options : list OptionEl;
  exclude2_options : list OptionEl;
  include1_options : list OptionEl;
  include2_options : list OptionEl
}.

(** A party circle of the spectrum map: its [data-party], its position and
    whether it carries the [selected] class. Size, colour and label are
    presentation attributes and are left out. *)
Record SpectrumParty : Type := mkSpectrumParty {
  dataset_party : string;
  style_left : Q;
  style_top : Q;
  selected_class : bool
}.

(** The content of the coalition counter. *)
Inductive CoalitionInfo : Type :=
| MajorityInfo (coalitionSeats : Z)            (* text-success, "n / 150 Majority" *)
| NeededInfo (coalitionSeats needed : Z).      (* text-danger, "n / 150 (k more needed)" *)

(** The JSON body of a successful or failed roster response. *)
Record Response : Type := mkResponse {
  success : bool;
  data_parties : list Party;
  total_seats : Z
}.

Inductive Effect : Type :=
| Alert (msg : string)
| FetchCoalitions (minParties maxParties : Js.number)
                  (excl incl : list Constraint)
| FetchChangePoll (poll_name : string)
| FetchUpdatePosition (party_name : string) (economic social : Q)
| ShowTotalSeats (total : Z)
| RenderPartyTable (rows : list TableRow)
| RenderDropdowns (d : Dropdowns)
| RenderSpectrum (circles : list SpectrumParty)
| RenderCoalitionInfo (info : CoalitionInfo)
| RenderExclusions (l : list Constraint)
| RenderInclusions (l : list Constraint)
| MarkRows (selected : list bool)
| RecreateChart
| UpdateChart
| ShowPartyInfo (p : Party)
| LogError (msg : string).

(** ** The functions of main.js *)

(** [updateCoalitions], up to the request: the response only feeds the
    coalition table. *)
Definition updateCoalitions (s : App) : App * list Effect :=
  let minParties := min_parties (form s) in
  let maxParties := max_parties (form s) in
  if Js.gt minParties maxParties then
    (set_form (set_min_parties maxParties (form s)) s,
     [Alert "Minimum parties cannot be greater than maximum parties"])
  else
    (s, [FetchCoalitions minParties maxParties (exclusions s) (inclusions s)]).

(** Which way a call of [addExclusion] or [addInclusion] ended: at one of
    the early [return]s after an alert, or after the [push]. *)
Inductive Outcome : Type :=
| Rejected
| Added.

Record Result : Type := mkResult {
  outcome : Outcome;
  after : App;
  effects : list Effect
}.

(** [addExclusion] from the point where [exclusion] is set: the duplicate
    and conflict tests, then the [push]. *)
Definition addExclusion_checked (exclusion : Constraint) (s : App) : Result :=
  let exclusionStr := Js.join "-" exclusion in
  if Js.some (fun e => (Js.join "-" e =? exclusionStr)%string) (exclusions s) then
    mkResult Rejected s [Alert "This exclusion already exists"]
  else if Js.some (fun i => (Js.join "-" i =? exclusionStr)%string) (inclusions s) then
    mkResult Rejected s [Alert "These parties are already set as inclusions"]
  else
    let s1 := set_exclusions (exclusions s ++ [exclusion]) s in
    let '(s2, requests) := updateCoalitions s1 in
    mkResult Added
             (set_form (set_exclude_fields "" "" (form s2)) s2)
             (RenderExclusions (exclusions s1) :: requests).

Definition addExclusion (s : App) : Result :=
  let party1 := exclude_party1 (form s) in
  let party2 := exclude_party2 (form s) in
  if Js.falsy party1 then
    mkResult Rejected s [Alert "Please select at least one party"]
  else if Js.falsy party2 then
    (* single party exclusion *)
    addExclusion_checked [party1] s
  else if (party1 =? party2)%string then
    mkResult Rejected s [Alert "Please select two different parties"]
  else
    (* two-party exclusion *)
    addExclusion_checked (Js.sort [party1; party2]) s.

Definition addInclusion (s : App) : Result :=
  let party1 := include_party1 (form s) in
  let party2 := include_party2 (form s) in
  if Js.falsy party1 || Js.falsy party2 then
    mkResult Rejected s [Alert "Please select two parties"]
  else if (party1 =? party2)%string then
    mkResult Rejected s [Alert "Please select two different parties"]
  else
    let inclusion := Js.sort [party1; party2] in
    let inclusionStr := Js.join "-" inclusion in
    if Js.some (fun i => (Js.join "-" i =? inclusionStr)%string) (inclusions s) then
      mkResult Rejected s [Alert "This inclusion already exists"]
    else if Js.some (fun e => (Js.join "-" e =? inclusionStr)%string) (exclusions s) then
      mkResult Rejected s [Alert "These parties are already set as exclusions"]
    else
      let s1 := set_inclusions (inclusions s ++ [inclusion]) s in
      let '(s2, requests) := updateCoalitions s1 in
      mkResult Added
               (set_form (set_include_fields "" "" (form s2)) s2)
               (RenderInclusions (inclusions s1) :: requests).

Definition removeExclusion (index : Z) (s : App) : App * list Effect :=
  let s1 := set_exclusions (Js.splice1 (exclusions s) index) s in
  let '(s2, requests) := updateCoalitions s1 in
  (s2, RenderExclusions (exclusions s1) :: requests).

Definition removeInclusion (index : Z) (s : App) : App * list Effect :=
  let s1 := set_inclusions (Js.splice1 (inclusions s) index) s in
  let '(s2, requests) := updateCoalitions s1 in
  (s2, RenderInclusions (inclusions s1) :: requests).

(** What the user does to the constraint lists: choose the two values of
    the exclude (include) dropdowns and press the add button, or press the
    remove button that was rendered with [index]. *)
Inductive Call : Type :=
| CallAddExclusion (party1 party2 : string)
| CallAddInclusion (party1 party2 : string)
| CallRemoveExclusion (index : Z)
| CallRemoveInclusion (index : Z).

Definition call (s : App) (c : Call) : App :=
  match c with
  | CallAddExclusion p1 p2 =>
      after (addExclusion (set_form (set_exclude_fields p1 p2 (form s)) s))
  | CallAddInclusion p1 p2 =>
      after (addInclusion (set_form (set_include_fields p1 p2 (form s)) s))
  | CallRemoveExclusion index => fst (removeExclusion index s)
  | CallRemoveInclusion index => fst (removeInclusion index s)
  end.

Definition calls (s : App) (l : list Call) : App := fold_left call l s.

(** The state when the script is loaded: [let parties = []],
    [let exclusions = []], [let inclusions = []] and the initial
    [dragState], on a page with the given form and container. *)
Definition loaded (f : Form) (w h : Q) : App :=
  mkApp [] [] [] (mkDrag false None None) f [] w h.

(** [populatePartyTable]: one row per entry of the roster. The rows are
    rebuilt, so no checkbox is checked afterwards. *)
Definition populatePartyTable (s : App) : App * list TableRow :=
  (set_checked [] s,
   map (fun party => mkRow (name party) (seats party) (name party)) (parties s)).

(** [populateDropdowns]: the placeholder followed by the parties that hold
    seats. The rebuilt selects show their first option, whose value is
    empty. *)
Definition partyOptions (ps : list Party) : list OptionEl :=
  map (fun p => mkOption (name p) (name p)) (filter (fun p => 0 <? seats p) ps).

Definition populateDropdowns (s : App) : App * Dropdowns :=
  let options := partyOptions (parties s) in
  (set_form (set_include_fields "" "" (set_exclude_fields "" "" (form s))) s,
   mkDropdowns
     (mkOption "" "Select party" :: options)
     (mkOption "" "Select party (optional)" :: options)
     (mkOption "" "Select party" :: options)
     (mkOption "" "Select party" :: options)).

(** [updateSpectrum]: the circles placed on the map. *)
Definition updateSpectrum (s : App) : list SpectrumParty :=
  let '(containerWidth, containerHeight) :=
    if Qeq_bool (offsetWidth s) 0 || Qeq_bool (offsetHeight s) 0
    then (400%Q, 400%Q)
    else (offsetWidth s, offsetHeight s) in
  let selectedParties := checked s in
  flat_map
    (fun party =>
       if seats party =? 0 then []
       else
         let '(x, y) := spectrumPosition containerWidth containerHeight
                                         (economic party) (social party) in
         [mkSpectrumParty (name party) x y
                          (Js.includes selectedParties (name party))])
    (parties s).

(** [updateVisualization]: the seat counter of the current selection, then
    the chart, the map and the highlighted rows. *)
Definition coalitionSeats (ps : list Party) (selectedParties : list string) : Z :=
  fold_left (fun sum p => sum + seats p)
            (filter (fun p => Js.includes selectedParties (name p)) ps)
            0.

Definition coalitionInfo (ps : list Party) (selectedParties : list string)
  : CoalitionInfo :=
  let n := coalitionSeats ps selectedParties in
  if 76 <=? n then MajorityInfo n
  else
    let needed := 76 - n in
    NeededInfo n needed.

Definition updateVisualization (s : App) : list Effect :=
  let selectedParties := checked s in
  [ RenderCoalitionInfo (coalitionInfo (parties s) selectedParties);
    UpdateChart;
    RenderSpectrum (updateSpectrum s);
    MarkRows (map (fun p => Js.includes selectedParties (name p)) (parties s)) ].

(** [changePoll] before the request is answered... *)
Definition changePoll (s : App) : list Effect :=
  let selectedPoll := poll_dropdown (form s) in
  if Js.falsy selectedPoll then [] else [FetchChangePoll selectedPoll].

(** ...and once [data] has arrived. *)
Definition changePoll_then (data : Response) (s : App) : App * list Effect :=
  if success data then
    let s1 := set_parties (data_parties data) s in
    let '(s2, rows) := populatePartyTable s1 in
    let '(s3, dropdowns) := populateDropdowns s2 in
    let '(s4, requests) := updateCoalitions s3 in
    (s4,
     [ShowTotalSeats (total_seats data); RenderPartyTable rows;
      RenderDropdowns dropdowns; RecreateChart]
       ++ requests ++ [RenderSpectrum (updateSpectrum s4)])
  else (s, []).

(** [handleMouseUp] before the request is answered: nothing happens unless
    a party is being dragged. [startDrag] sets the three fields of
    [dragState] together. *)
Definition handleMouseUp (clientX clientY : Q) (s : App) : list Effect :=
  match isDragging (dragState s), dragParty (dragState s),
        containerRect (dragState s) with
  | true, Some party, Some rect =>
      let '(economic, social) := releasePosition rect clientX clientY in
      [FetchUpdatePosition (name party) economic social]
  | _, _, _ => []
  end.

(** ...and once the request is answered ([Some data]) or has failed
    ([None]): the roster is replaced on success, and the drag state is
    cleaned up in every case. *)
Definition handleMouseUp_then (answer : option Response) (s : App)
  : App * list Effect :=
  let clean (r : App * list Effect) :=
    (set_dragState (mkDrag false None None) (fst r), snd r) in
  match answer with
  | Some data =>
      if success data then
        let s1 := set_parties (data_parties data) s in
        let circles := updateSpectrum s1 in
        let '(s2, requests) := updateCoalitions s1 in
        let info :=
          match dragParty (dragState s) with
          | Some dragged =>
              match find (fun p => (name p =? name dragged)%string) (parties s2) with
              | Some updatedParty => [ShowPartyInfo updatedParty]
              | None => []
              end
          | None => []
          end in
        clean (s2, [RenderSpectrum circles] ++ requests ++ [UpdateChart] ++ info)
      else clean (s, [])
  | None => clean (s, [LogError "Failed to update party position:"])
  end.

(** ** Labels, colours and the chart *)

(** String built-ins used by [getPartyAbbreviation]. *)
Module JsString.

(** [s.includes(c)] for a one-character search string. *)
Fixpoint contains (c : ascii) (s : string) : bool :=
  match s with
  | EmptyString => false
  | String d r => Ascii.eqb d c || contains c r
  end.

(** [s.split(c)] for a one-character separator: the empty string splits
    into one empty part. *)
Fixpoint split (c : ascii) (s : string) : list string :=
  match s with
  | EmptyString => [EmptyString]
  | String d r =>
      if Ascii.eqb d c then EmptyString :: split c r
      else
        match split c r with
        | [] => [String d EmptyString]
        | part :: parts => String d part :: parts
        end
  end.

(** [s.substring(0, n)]. *)
Definition substring0 (n : nat) (s : string) : string := String.substring 0 n s.

End JsString.

(** [getPartyAbbreviation]. *)
Definition getPartyAbbreviation (partyName : string) : string :=
  if (partyName =? "GL-PvdA")%string then "GL-PvdA"
  else if (String.length partyName <=? 7)%nat then partyName
  else
    let first5 := JsString.substring0 5 partyName in
    if JsString.contains "-" partyName then
      let parts := JsString.split "-" partyName in
      if (List.length parts =? 2)%nat then
        if (String.length partyName <=? 8)%nat then partyName
        else (nth 0 parts "" ++ "-" ++ JsString.substring0 2 (nth 1 parts ""))%string
      else first5
    else first5.

(** [Math.round] on an exact value: the nearest integer, halves upwards. *)
Definition Math_round (x : Q) : Z := Qfloor (x + (1 # 2)).

(** [a < b] on exact values. *)
Definition Qltb (a b : Q) : bool := negb (Qle_bool b a).

(** The three channels of an [rgb(r, g, b)] string. *)
Record Rgb : Type := mkRgb {
  red : Z;
  green : Z;
  blue : Z
}.

(** [getPartyColor]: green on the left, yellow in the centre, red on the
    right. *)
Definition getPartyColor (economicPosition : Q) : Rgb :=
  let normalized := ((economicPosition + 1) / 2)%Q in
  if Qltb normalized (1 # 2) then
    let ratio := (normalized * 2)%Q in
    mkRgb (Math_round (255 * ratio)) 255 0
  else
    let ratio := ((normalized - (1 # 2)) * 2)%Q in
    mkRgb 255 (Math_round (255 * (1 - ratio))) 0.




(** [Array.prototype.sort(compare)]: a stable insertion sort; [x] goes
    before the first element it does not have to follow. *)
Section SortBy.
Context {A : Type} (compare : A -> A -> Z).

Fixpoint insert_by (x : A) (l : list A) : list A :=
  match l with
  | [] => [x]
  | y :: ys => if compare x y <=? 0 then x :: l else y :: insert_by x ys
  end.

Definition sort_by (l : list A) : list A := fold_right insert_by [] l.

End SortBy.

(** [[...parties].sort((a, b) => b.seats - a.seats)]: largest first. *)
Definition sortedParties (ps : list Party) : list Party :=
  sort_by (fun a b => seats b - seats a) ps.

(** A colour with its opacity, [rgba(r, g, b, a)]; [rgb(r, g, b)] is
    opacity 1. *)
Record Rgba : Type := mkRgba {
  rgb : Rgb;
  alpha : Q
}.

(** An option of a Chart.js dataset: one value for all bars or one per
    bar. *)
Inductive Bars (A : Type) : Type :=
| AllBars (a : A)
| EachBar (l : list A).
Arguments AllBars {A}.
Arguments EachBar {A}.

(** The data of the seat chart. A label pairs the name and the seats it
    prints. *)
Record Chart : Type := mkChart {
  labels : list (string * Z);
  data : list Z;
  backgroundColor : list Rgba;
  borderColor : Bars string;
  borderWidth : Bars Z
}.

(** [initializeChart]. *)
Definition initializeChart (ps : list Party) : Chart :=
  let sorted := sortedParties ps in
  mkChart (map (fun p => (name p, seats p)) sorted)
          (map seats sorted)
          (map (fun p => mkRgba (getPartyColor (economic p)) 1) sorted)
          (AllBars "#fff")
          (AllBars 2).

(** [updateChart]: the bars of the checked parties are opaque with a thick
    black border, the others are faded. Labels and data stay. *)
Definition updateChart (s : App) (chart : Chart) : Chart :=
  let selectedParties := checked s in
  let sorted := sortedParties (parties s) in
  mkChart (labels chart)
          (data chart)
          (map (fun p =>
                  if Js.includes selectedParties (name p)
                  then mkRgba (getPartyColor (economic p)) 1
                  else mkRgba (getPartyColor (economic p)) (2 # 5))
               sorted)
          (EachBar (map (fun p =>
                           if Js.includes selectedParties (name p)
                           then "#000" else "#fff")
                        sorted))
          (EachBar (map (fun p =>
                           if Js.includes selectedParties (name p)
                           then 3 else 1)
                        sorted)).

(** ** The frame of the spectrum map *)

Record Line : Type := mkLine {
  x1 : Q;
  y1 : Q;
  x2 : Q;
  y2 : Q
}.

Record TextEl : Type := mkText {
  text_x : Q;
  text_y : Q;
  text_content : string;
  text_anchor : string
}.

Record Svg : Type := mkSvg {
  viewBox : Q * Q;
  xAxis : Line;
  yAxis : Line;
  axisLabels : list TextEl;
  quadrantLabels : list TextEl
}.

(** [createSVGElements]: the two axes, the six axis labels and the four
    quadrant labels. The grid pattern and the empty group of coalition
    lines carry no geometry of their own. *)
Definition createSVGElements (containerWidth containerHeight padding : Q) : Svg :=
  let centerX := (containerWidth / 2)%Q in
  let centerY := (containerHeight / 2)%Q in
  let usableWidth := (containerWidth - (padding * 2))%Q in
  let usableHeight := (containerHeight - (padding * 2))%Q in
  mkSvg (containerWidth, containerHeight)
        (mkLine padding centerY (containerWidth - padding)%Q centerY)
        (mkLine centerX padding centerX (containerHeight - padding)%Q)
        [ mkText (padding + 20)%Q 20%Q "Progressive" "start";
          mkText (containerWidth - padding - 20)%Q 20%Q "Progressive" "end";
          mkText (padding + 20)%Q (containerHeight - 10)%Q "Conservative" "start";
          mkText (containerWidth - padding - 20)%Q (containerHeight - 10)%Q
                 "Conservative" "end";
          mkText 20%Q (centerY + 5)%Q "Left" "middle";
          mkText (containerWidth - 20)%Q (centerY + 5)%Q "Right" "middle" ]
        [ mkText (padding + usableWidth * (1 # 4))%Q (padding + usableHeight * (1 # 4))%Q
                 "Left-Progressive" "middle";
          mkText (padding + usableWidth * (3 # 4))%Q (padding + usableHeight * (1 # 4))%Q
                 "Right-Progressive" "middle";
          mkText (padding + usableWidth * (1 # 4))%Q (padding + usableHeight * (3 # 4))%Q
                 "Left-Conservative" "middle";
          mkText (padding + usableWidth * (3 # 4))%Q (padding + usableHeight * (3 # 4))%Q
                 "Right-Conservative" "middle" ].

(** The frame [updateSpectrum] draws: [createSVGElements] on the container
    dimensions, 400 by 400 when the container has none yet, with the
    padding of 50. *)
Definition spectrumFrame (s : App) : Svg :=
  let '(containerWidth, containerHeight) :=
    if Qeq_bool (offsetWidth s) 0 || Qeq_bool (offsetHeight s) 0
    then (400%Q, 400%Q)
    else (offsetWidth s, offsetHeight s) in
  createSVGElements containerWidth containerHeight 50%Q.

(** ** Dragging *)

Section DragPosition.
Context {num : Type} `{JsArith num}.
Local Open Scope js_scope.

(** [handleMouseMove], the position given to the dragged circle: the mouse
    relative to the container, constrained to the padded area. *)
Definition dragPosition (containerRect : Rect num)
           (clientX clientY : num) : num * num :=
  let mouseX := clientX - left containerRect in
  let mouseY := clientY - top containerRect in
  let constrainedX :=
    math_max padding (math_min (width containerRect - padding) mouseX) in
  let constrainedY :=
    math_max padding (math_min (height containerRect - padding) mouseY) in
  (constrainedX, constrainedY).

End DragPosition.

(** [startDrag]: the party and the rectangle of the container are
    remembered. *)
Definition startDrag (party : Party) (rect : Rect Q) (s : App) : App :=
  set_dragState (mkDrag true (Some party) (Some rect)) s.

(** [handleMouseMove]: the circle of the dragged party, if it is on the
    map, follows the constrained mouse position; nothing moves unless a
    party is being dragged. *)
Definition handleMouseMove (clientX clientY : Q) (s : App)
  : option (string * (Q * Q)) :=
  match isDragging (dragState s), dragParty (dragState s),
        containerRect (dragState s) with
  | true, Some party, Some rect =>
      if existsb (fun c => (dataset_party c =? name party)%string) (updateSpectrum s)
      then Some (name party, dragPosition rect clientX clientY)
      else None
  | _, _, _ => None
  end.

(** * Vocabulary of the properties *)

(** A two-name entry lists its names in ascending order. *)
Definition ascending (c : Constraint) : Prop :=
  match c with
  | [a; b] => String.compare a b = Lt
  | _ => True
  end.

(** One or two distinct names, in ascending order when there are two. *)
Definition valid_exclusion (c : Constraint) : Prop :=
  (List.length c = 1%nat \/ List.length c = 2%nat) /\ NoDup c /\ ascending c.

(** Exactly two distinct names, in ascending order. *)
Definition valid_inclusion (c : Constraint) : Prop :=
  List.length c = 2%nat /\ NoDup c /\ ascending c.

(** Both lists hold well-formed entries only. *)
Definition constraints_ok (s : App) : Prop :=
  Forall valid_exclusion (exclusions s) /\ Forall valid_inclusion (inclusions s).

(** Two entries name the same parties. *)
Definition same_names (c d : Constraint) : Prop :=
  forall n, In n c <-> In n d.

(** The names a proposal consists of: one name when the second dropdown is
    left empty, two otherwise. *)
Definition proposal (party1 party2 : string) : Constraint :=
  if Js.falsy party2 then [party1] else [party1; party2].

(** An entry of either list names the same parties as [c]. *)
Definition already_listed (s : App) (c : Constraint) : Prop :=
  exists e, (In e (exclusions s) \/ In e (inclusions s)) /\ same_names e c.

(** The separator of [join('-')] does not occur in the name. *)
Fixpoint hyphen_free (s : string) : bool :=
  match s with
  | EmptyString => true
  | String c r => negb (Ascii.eqb c "-") && hyphen_free r
  end.

(** No stored name contains the separator. *)
Definition names_hyphen_free (l : list Constraint) : Prop :=
  Forall (fun c => Forall (fun n => hyphen_free n = true) c) l.

(** The effect is a request to /api/coalitions. *)
Definition is_coalitions_request (e : Effect) : bool :=
  match e with
  | FetchCoalitions _ _ _ _ => true
  | _ => false
  end.

(** A run of effects contains a request to /api/coalitions. *)
Definition requests_coalitions (l : list Effect) : bool :=
  existsb is_coalitions_request l.

(** The total seat count of the active dataset, as the data model defines
    it: the sum of all parties' seats. The client itself only prints the
    [total_seats] of the response. *)
Definition totalSeats (ps : list Party) : Z :=
  fold_left (fun sum p => sum + seats p) ps 0.

(** The sum of the seats of the roster parties whose name is among
    [names], written by recursion on the roster. *)
Fixpoint checked_seats (ps : list Party) (names : list string) : Z :=
  match ps with
  | [] => 0
  | p :: rest =>
      (if in_dec string_dec (name p) names then seats p else 0)
      + checked_seats rest names
  end.

(** The effect writes the coalition counter. *)
Definition is_coalition_info (e : Effect) : bool :=
  match e with
  | RenderCoalitionInfo _ => true
  | _ => false
  end.

(** The counter a run of effects leaves on the page. *)
Definition shown_info (l : list Effect) : option CoalitionInfo :=
  match find is_coalition_info l with
  | Some (RenderCoalitionInfo i) => Some i
  | _ => None
  end.

(** The seat count the counter shows. *)
Definition displayed_seats (i : CoalitionInfo) : Z :=
  match i with
  | MajorityInfo n => n
  | NeededInfo n _ => n
  end.

(** The counter shows the majority mark. *)
Definition reports_majority (i : CoalitionInfo) : bool :=
  match i with
  | MajorityInfo _ => true
  | NeededInfo _ _ => false
  end.

(** The selection is reported as a majority. *)
Definition majority_shown (s : App) : bool :=
  match shown_info (updateVisualization s) with
  | Some i => reports_majority i
  | None => false
  end.

(** The user chooses [p1] and [p2] in the two exclude dropdowns. *)
Definition select_exclude (p1 p2 : string) (s : App) : App :=
  set_form (set_exclude_fields p1 p2 (form s)) s.

(** The user chooses [p1] and [p2] in the two include dropdowns. *)
Definition select_include (p1 p2 : string) (s : App) : App :=
  set_form (set_include_fields p1 p2 (form s)) s.

(** [a] is the beginning of [s]. *)
Definition is_prefix (a s : string) : Prop :=
  exists rest, s = (a ++ rest)%string.


(** Two pixel positions coincide. *)
Definition same_point (p q : Q * Q) : Prop :=
  (fst p == fst q)%Q /\ (snd p == snd q)%Q.

(** The pixel lies in the padded area of a container. *)
Definition in_padded_area (w h : Q) (p : Q * Q) : Prop :=
  (50 <= fst p <= w - 50)%Q /\ (50 <= snd p <= h - 50)%Q.

(** The anchor point and the content of a text element. *)
Definition placed (t : TextEl) (content : string) (p : Q * Q) : Prop :=
  text_content t = content /\ same_point (text_x t, text_y t) p.

(** The strings by which the source tells entries apart: the names of each
    stored entry joined with a hyphen, exclusions first. *)
Definition keys (s : App) : list string :=
  map (Js.join "-") (exclusions s ++ inclusions s).

(** The array stored for a proposal: the one name, or the two names
    sorted. *)
Definition entry_of (party1 party2 : string) : Constraint :=
  if Js.falsy party2 then [party1] else Js.sort [party1; party2].

(** The bar is drawn opaque. *)
Definition highlighted (c : Rgba) : bool := Qeq_bool (alpha c) 1.

(** What a label of the chart is made of. *)
Definition label_of (p : Party) : string * Z := (name p, seats p).

(** * Sample states *)

(** An untouched form asking for two to four parties. *)
Definition form0 : Form := mkForm "" "" "" "" (Js.Num 2) (Js.Num 4) "".

(** A state with one exclusion and one inclusion, and the same pair chosen
    again in both forms. *)
Definition busy : App :=
  mkApp [] [["PVV"; "VVD"]] [["CDA"; "D66"]] (mkDrag false None None)
        (mkForm "VVD" "PVV" "D66" "CDA" (Js.Num 2) (Js.Num 4) "")
        [] 400 400.

(** The minimum field above the maximum field. *)
Definition inverted : App :=
  mkApp [] [] [] (mkDrag false None None)
        (mkForm "" "" "" "" (Js.Num 5) (Js.Num 3) "") [] 400 400.

(** The single-party exclusion of the merged list, entered while a poll
    with the merged list was active; the constraint lists survive a change
    of poll. *)
Definition merger_excluded : App :=
  calls (loaded form0 400 400) [CallAddExclusion "GL-PvdA" ""].

(** A roster of 100 seats with the party of 60 seats checked. *)
Definition small_chamber : App :=
  mkApp [mkParty "A" 60 (-1 # 2) 0; mkParty "B" 40 (1 # 2) 0] [] []
        (mkDrag false None None) form0 ["A"] 400 400.

(** The scenario of three parties A (50), B (40), C (60) with A and C
    checked. *)
Definition chamber150 : App :=
  mkApp [mkParty "A" 50 (-4 # 5) (1 # 2); mkParty "B" 40 (1 # 10) (1 # 10);
         mkParty "C" 60 (9 # 10) (-3 # 5)] [] []
        (mkDrag false None None) form0 ["A"; "C"] 400 400.

(** A roster with a party that holds no seat. *)
Definition with_seatless : App :=
  mkApp [mkParty "VVD" 24 (3 # 5) (1 # 5); mkParty "50PLUS" 0 (-1 # 5) (-1 # 5);
         mkParty "D66" 9 (1 # 10) (4 # 5)] [] []
        (mkDrag false None None) form0 [] 400 400.

(** A party held over a 400 by 300 container, released far outside. *)
Definition dragging : App :=
  mkApp (parties chamber150) [] []
        (mkDrag true (Some (mkParty "A" 50 (-4 # 5) (1 # 2)))
                (Some (mkRect 10%Q 20%Q 400%Q 300%Q)))
        form0 [] 400 300.

(** Sample values in binary64. *)
Module Sample64.
Import PrimFloat.
Local Open Scope float_scope.

(** The double that the literal [0.1] denotes. *)
Definition tenth : float := 0x1.999999999999ap-4%float.

(** The double the round trip returns for it, [0.10000000000000009]. *)
Definition tenth_back : float := 0x1.99999999999a0p-4%float.

(** A 400 by 400 container at the origin of the viewport. *)
Definition container : Rect float := mkRect 0%float 0%float 400%float 400%float.

End Sample64.

(** * Properties *)

(** ** Well-formed constraint lists *)

Section Sorting.

Lemma compare_lt_neq (a b : string) : String.compare a b = Lt -> a <> b.
Proof.
  intros Hlt Heq. subst b.
  pose proof (String.compare_antisym a a) as Hs.
  rewrite Hlt in Hs. discriminate Hs.
Qed.

(** Sorting two different names puts the smaller one first. *)
Lemma sort_pair (p1 p2 : string) :
  p1 <> p2 ->
  exists a b, Js.sort [p1; p2] = [a; b] /\ String.compare a b = Lt /\
              ((a = p1 /\ b = p2) \/ (a = p2 /\ b = p1)).
Proof.
  intros Hne. unfold Js.sort. simpl. unfold String.leb.
  destruct (String.compare p1 p2) eqn:Hc.
  - apply String.compare_eq_iff in Hc. contradiction.
  - exists p1, p2. split; [reflexivity | split; [exact Hc | left; auto]].
  - exists p2, p1. split; [reflexivity | split; [| right; auto]].
    rewrite String.compare_antisym, Hc. reflexivity.
Qed.

Lemma sort_pair_sym (p1 p2 : string) :
  p1 <> p2 -> Js.sort [p1; p2] = Js.sort [p2; p1].
Proof.
  intros Hne. unfold Js.sort. simpl. unfold String.leb.
  rewrite (String.compare_antisym p2 p1).
  destruct (String.compare p1 p2) eqn:Hc; simpl; try reflexivity.
  apply String.compare_eq_iff in Hc. contradiction.
Qed.

Lemma sort_pair_valid (p1 p2 : string) :
  p1 <> p2 ->
  valid_inclusion (Js.sort [p1; p2]) /\ same_names (Js.sort [p1; p2]) [p1; p2].
Proof.
  intros Hne.
  destruct (sort_pair p1 p2 Hne) as (a & b & -> & Hlt & Hab).
  pose proof (compare_lt_neq _ _ Hlt) as Hd.
  split.
  - repeat split; simpl; auto.
    constructor; [simpl; intuition congruence|].
    constructor; [simpl; tauto | constructor].
  - intro n. simpl. destruct Hab as [[-> ->] | [-> ->]]; tauto.
Qed.

Lemma valid_inclusion_exclusion (c : Constraint) :
  valid_inclusion c -> valid_exclusion c.
Proof. intros (Hl & Hn & Ha). repeat split; auto. Qed.

Lemma singleton_valid (p : string) : valid_exclusion [p].
Proof.
  repeat split; simpl; auto.
  constructor; [simpl; tauto | constructor].
Qed.

End Sorting.

Section Splice.
Context {A : Type}.

Lemma splice1_incl (l : list A) (index : Z) (x : A) :
  In x (Js.splice1 l index) -> In x l.
Proof.
  unfold Js.splice1. intros Hin.
  apply in_app_or in Hin. destruct Hin as [Hin | Hin].
  - rewrite <- (firstn_skipn (Z.to_nat
      (if index <? 0 then Z.max (Z.of_nat (List.length l) + index) 0
       else Z.min index (Z.of_nat (List.length l)))) l).
    apply in_or_app. left. exact Hin.
  - rewrite <- (firstn_skipn (S (Z.to_nat
      (if index <? 0 then Z.max (Z.of_nat (List.length l) + index) 0
       else Z.min index (Z.of_nat (List.length l))))) l).
    apply in_or_app. right. exact Hin.
Qed.

Lemma splice1_Forall (P : A -> Prop) (l : list A) (index : Z) :
  Forall P l -> Forall P (Js.splice1 l index).
Proof.
  rewrite !Forall_forall. intros Hall x Hin.
  apply Hall. eapply splice1_incl. exact Hin.
Qed.

End Splice.

(** [updateCoalitions] reads the constraint lists and the roster and writes
    neither. *)
Lemma updateCoalitions_keeps (s : App) :
  parties (fst (updateCoalitions s)) = parties s /\
  exclusions (fst (updateCoalitions s)) = exclusions s /\
  inclusions (fst (updateCoalitions s)) = inclusions s.
Proof.
  unfold updateCoalitions.
  destruct (Js.gt _ _); simpl; auto.
Qed.

Ltac split_updateCoalitions :=
  match goal with
  | |- context [updateCoalitions ?s] =>
      let K := fresh "K" in
      pose proof (updateCoalitions_keeps s) as K;
      destruct (updateCoalitions s); simpl in K |- *
  end.

Ltac case_some :=
  match goal with
  | |- context [Js.some ?f ?l] => destruct (Js.some f l) eqn:?; simpl; auto
  end.

(** What a call of [addExclusion] does to the two lists, along the path it
    took. *)
Lemma addExclusion_lists (s : App) :
  inclusions (after (addExclusion s)) = inclusions s /\
  match outcome (addExclusion s) with
  | Rejected => exclusions (after (addExclusion s)) = exclusions s
  | Added =>
      exists c, valid_exclusion c /\
                exclusions (after (addExclusion s)) = exclusions s ++ [c]
  end.
Proof.
  unfold addExclusion, addExclusion_checked.
  destruct (Js.falsy (exclude_party1 (form s))); simpl; auto.
  destruct (Js.falsy (exclude_party2 (form s))).
  - do 2 case_some.
    split_updateCoalitions. destruct K as (_ & Ke & Ki).
    split; [exact Ki|]. exists [exclude_party1 (form s)].
    split; [apply singleton_valid | exact Ke].
  - destruct (String.eqb_spec (exclude_party1 (form s)) (exclude_party2 (form s)))
      as [Heq | Hne]; simpl; auto.
    do 2 case_some.
    split_updateCoalitions. destruct K as (_ & Ke & Ki).
    split; [exact Ki|]. eexists. split; [|exact Ke].
    apply valid_inclusion_exclusion, sort_pair_valid, Hne.
Qed.

Lemma addInclusion_lists (s : App) :
  exclusions (after (addInclusion s)) = exclusions s /\
  match outcome (addInclusion s) with
  | Rejected => inclusions (after (addInclusion s)) = inclusions s
  | Added =>
      exists c, valid_inclusion c /\
                inclusions (after (addInclusion s)) = inclusions s ++ [c]
  end.
Proof.
  unfold addInclusion.
  destruct (Js.falsy (include_party1 (form s)) || Js.falsy (include_party2 (form s)));
    simpl; auto.
  destruct (String.eqb_spec (include_party1 (form s)) (include_party2 (form s)))
    as [Heq | Hne]; simpl; auto.
  do 2 case_some.
  split_updateCoalitions. destruct K as (_ & Ke & Ki).
  split; [exact Ke|]. eexists. split; [|exact Ki].
  apply sort_pair_valid, Hne.
Qed.

Lemma call_preserves (s : App) (c : Call) :
  constraints_ok s -> constraints_ok (call s c).
Proof.
  intros [Hex Hin]. destruct c as [p1 p2 | p1 p2 | index | index]; simpl.
  - pose proof (addExclusion_lists
                  (set_form (set_exclude_fields p1 p2 (form s)) s)) as [Hi He].
    split; [| rewrite Hi; exact Hin].
    destruct (outcome _).
    + rewrite He. exact Hex.
    + destruct He as (c & Hc & ->). apply Forall_app. split; [exact Hex|].
      constructor; [exact Hc | constructor].
  - pose proof (addInclusion_lists
                  (set_form (set_include_fields p1 p2 (form s)) s)) as [He Hi].
    split; [rewrite He; exact Hex |].
    destruct (outcome _).
    + rewrite Hi. exact Hin.
    + destruct Hi as (c & Hc & ->). apply Forall_app. split; [exact Hin|].
      constructor; [exact Hc | constructor].
  - unfold removeExclusion. split_updateCoalitions. destruct K as (_ & Ke & Ki).
    split.
    + rewrite Ke. apply splice1_Forall, Hex.
    + rewrite Ki. exact Hin.
  - unfold removeInclusion. split_updateCoalitions. destruct K as (_ & Ke & Ki).
    split.
    + rewrite Ke. exact Hex.
    + rewrite Ki. apply splice1_Forall, Hin.
Qed.

Lemma calls_preserve (l : list Call) (s : App) :
  constraints_ok s -> constraints_ok (calls s l).
Proof.
  revert s. induction l as [| c l IH]; intros s Hs; simpl.
  - exact Hs.
  - apply IH, call_preserves, Hs.
Qed.

(** C5. Starting from empty constraint lists, after any sequence of
    addExclusion, addInclusion, removeExclusion and removeInclusion calls
    every stored exclusion holds one or two distinct names, every stored
    inclusion holds exactly two distinct names, and every two-name entry is
    in ascending order, whatever the order of selection was. *)
Theorem constraints_stay_well_formed (s0 : App) (l : list Call) :
  exclusions s0 = [] ->
  inclusions s0 = [] ->
  Forall valid_exclusion (exclusions (calls s0 l)) /\
  Forall valid_inclusion (inclusions (calls s0 l)).
Proof.
  intros He Hi. apply calls_preserve.
  split; [rewrite He | rewrite Hi]; constructor.
Qed.

Lemma constraints_stay_well_formed_witness :
  Forall valid_exclusion
    (exclusions (calls (loaded form0 400 400)
       [CallAddExclusion "VVD" "PVV"; CallAddInclusion "D66" "CDA";
        CallAddExclusion "SP" ""; CallRemoveExclusion 0])) /\
  Forall valid_inclusion
    (inclusions (calls (loaded form0 400 400)
       [CallAddExclusion "VVD" "PVV"; CallAddInclusion "D66" "CDA";
        CallAddExclusion "SP" ""; CallRemoveExclusion 0])).
Proof.
  apply (constraints_stay_well_formed (loaded form0 400 400)); reflexivity.
Defined.

(** C3. Whenever addExclusion or addInclusion rejects a proposal, whatever
    the reason, the exclusions list and the inclusions list are exactly
    what they were before the call. *)
Theorem rejection_leaves_lists_unchanged (s : App) :
  (outcome (addExclusion s) = Rejected ->
   exclusions (after (addExclusion s)) = exclusions s /\
   inclusions (after (addExclusion s)) = inclusions s) /\
  (outcome (addInclusion s) = Rejected ->
   exclusions (after (addInclusion s)) = exclusions s /\
   inclusions (after (addInclusion s)) = inclusions s).
Proof.
  split; intros Hrej.
  - destruct (addExclusion_lists s) as [Hi He]. rewrite Hrej in He. auto.
  - destruct (addInclusion_lists s) as [He Hi]. rewrite Hrej in Hi. auto.
Qed.

Lemma rejection_leaves_lists_unchanged_witness :
  (exclusions (after (addExclusion busy)) = exclusions busy /\
   inclusions (after (addExclusion busy)) = inclusions busy) /\
  (exclusions (after (addInclusion busy)) = exclusions busy /\
   inclusions (after (addInclusion busy)) = inclusions busy).
Proof.
  destruct (rejection_leaves_lists_unchanged busy) as [He Hi].
  split; [apply He | apply Hi]; reflexivity.
Defined.

(** ** The party-count range *)

(** C4. For integer bounds [a] and [b] in the two fields, updateCoalitions
    sends the /api/coalitions request exactly when [a <= b], with these
    bounds and the current constraint lists; when [a > b] it only alerts,
    sends nothing, and sets the minimum field to [b]. *)
Theorem updateCoalitions_range (s : App) (a b : Z) :
  min_parties (form s) = Js.Num a ->
  max_parties (form s) = Js.Num b ->
  (requests_coalitions (snd (updateCoalitions s)) = true <-> a <= b) /\
  (a <= b ->
   updateCoalitions s =
     (s, [FetchCoalitions (Js.Num a) (Js.Num b) (exclusions s) (inclusions s)])) /\
  (b < a ->
   snd (updateCoalitions s) =
     [Alert "Minimum parties cannot be greater than maximum parties"] /\
   min_parties (form (fst (updateCoalitions s))) = Js.Num b /\
   max_parties (form (fst (updateCoalitions s))) = Js.Num b).
Proof.
  intros Hmin Hmax. unfold updateCoalitions. rewrite Hmin, Hmax. simpl.
  destruct (Z.ltb_spec b a) as [Hlt | Hge]; simpl.
  - repeat split; try lia; try discriminate; auto.
  - repeat split; try lia; auto.
Qed.

Lemma updateCoalitions_range_witness :
  requests_coalitions (snd (updateCoalitions inverted)) = false /\
  snd (updateCoalitions inverted) =
    [Alert "Minimum parties cannot be greater than maximum parties"] /\
  min_parties (form (fst (updateCoalitions inverted))) = Js.Num 3.
Proof.
  destruct (updateCoalitions_range inverted 5 3 eq_refl eq_refl)
    as (Hreq & _ & Hbad).
  destruct (Hbad ltac:(lia)) as (Halert & Hmin & _).
  split; [| split; [exact Halert | exact Hmin]].
  apply Bool.not_true_is_false. intro E. apply Hreq in E. lia.
Defined.

(** Not a claim of its own: a field whose content is not a number makes the
    comparison false, and the request is sent with that bound. *)
Lemma updateCoalitions_not_a_number (s : App) :
  min_parties (form s) = Js.NaN \/ max_parties (form s) = Js.NaN ->
  updateCoalitions s =
    (s, [FetchCoalitions (min_parties (form s)) (max_parties (form s))
                         (exclusions s) (inclusions s)]).
Proof.
  unfold updateCoalitions. intros [H | H]; rewrite H.
  - reflexivity.
  - destruct (min_parties (form s)); reflexivity.
Qed.

(** ** Duplicates and conflicts *)

Section Join.

Lemma hyphen_in_pair (a b : string) :
  hyphen_free (a ++ String "-" b)%string = false.
Proof.
  induction a as [| c a IH]; simpl.
  - reflexivity.
  - rewrite IH. apply andb_false_r.
Qed.

Lemma join_pair_inj (a b a' b' : string) :
  hyphen_free a = true -> hyphen_free a' = true ->
  (a ++ String "-" b)%string = (a' ++ String "-" b')%string ->
  a = a' /\ b = b'.
Proof.
  revert a'. induction a as [| c a IH]; intros [| c' a'] Ha Ha' Heq;
    simpl in *.
  - injection Heq as ->. auto.
  - injection Heq as <- _. discriminate Ha'.
  - injection Heq as -> _. discriminate Ha.
  - injection Heq as -> Heq.
    apply andb_true_iff in Ha as [_ Ha].
    apply andb_true_iff in Ha' as [_ Ha'].
    destruct (IH a' Ha Ha' Heq) as [-> ->]. auto.
Qed.

(** On entries of one or two hyphen-free names the joined string
    determines the entry. *)
Lemma join_inj (e c : Constraint) :
  (List.length e = 1%nat \/ List.length e = 2%nat) ->
  (List.length c = 1%nat \/ List.length c = 2%nat) ->
  Forall (fun n => hyphen_free n = true) e ->
  Forall (fun n => hyphen_free n = true) c ->
  Js.join "-" e = Js.join "-" c -> e = c.
Proof.
  intros Hle Hlc He Hc Heq.
  destruct e as [| a [| b [| ? ?]]]; simpl in Hle; try lia;
    destruct c as [| a' [| b' [| ? ?]]]; simpl in Hlc; try lia;
    simpl in Heq.
  - congruence.
  - inversion He as [| ? ? Ha _]; subst.
    rewrite hyphen_in_pair in Ha. discriminate Ha.
  - inversion Hc as [| ? ? Ha _]; subst.
    rewrite hyphen_in_pair in Ha. discriminate Ha.
  - inversion He as [| ? ? Ha _]; inversion Hc as [| ? ? Ha' _]; subst.
    destruct (join_pair_inj _ _ _ _ Ha Ha' Heq) as [-> ->]. reflexivity.
Qed.

(** Well-formed entries with the same names are the same array. *)
Lemma same_names_eq (e c : Constraint) :
  valid_exclusion e -> valid_exclusion c -> same_names e c -> e = c.
Proof.
  intros (Hle & Hne & Hae) (Hlc & Hnc & Hac) Hsame.
  destruct e as [| a [| b [| ? ?]]]; simpl in Hle; try lia;
    destruct c as [| a' [| b' [| ? ?]]]; simpl in Hlc; try lia.
  - destruct (Hsame a) as [H1 _]. simpl in H1.
    destruct H1 as [-> | []]; auto.
  - exfalso. inversion Hnc as [| ? ? Hnot _]; subst. apply Hnot.
    destruct (Hsame a') as [_ H1]. destruct (Hsame b') as [_ H2].
    simpl in *. destruct H1 as [<- | []]; auto. destruct H2 as [<- | []]; auto.
  - exfalso. inversion Hne as [| ? ? Hnot _]; subst. apply Hnot.
    destruct (Hsame a) as [H1 _]. destruct (Hsame b) as [H2 _].
    simpl in *. destruct H1 as [<- | []]; auto. destruct H2 as [<- | []]; auto.
  - simpl in Hae, Hac.
    pose proof (compare_lt_neq _ _ Hae) as Hab.
    pose proof (compare_lt_neq _ _ Hac) as Hab'.
    destruct (Hsame a) as [H1 _]. destruct (Hsame b) as [H2 _].
    simpl in H1, H2.
    destruct H1 as [E1 | [E1 | []]]; auto;
      destruct H2 as [E2 | [E2 | []]]; auto; subst; try congruence.
    rewrite String.compare_antisym, Hac in Hae. discriminate Hae.
Qed.

(** The test the source runs on a list, read on names. *)
Lemma some_join_iff (l : list Constraint) (c : Constraint) (valid : Constraint -> Prop) :
  (forall e, valid e -> valid_exclusion e) ->
  Forall valid l -> names_hyphen_free l ->
  valid_exclusion c -> Forall (fun n => hyphen_free n = true) c ->
  Js.some (fun e => (Js.join "-" e =? Js.join "-" c)%string) l = true <->
  exists e, In e l /\ same_names e c.
Proof.
  intros Hv Hl Hfree Hc Hcfree. unfold Js.some. rewrite existsb_exists.
  rewrite Forall_forall in Hl. unfold names_hyphen_free in Hfree.
  rewrite Forall_forall in Hfree.
  split; intros (e & Hin & He); exists e; split; auto.
  - apply String.eqb_eq in He.
    assert (e = c) as ->; [| intro n; tauto].
    apply join_inj; auto.
    + apply (Hv e (Hl e Hin)).
    + apply Hc.
  - apply String.eqb_eq. f_equal.
    apply same_names_eq; auto.
Qed.

End Join.

(** Not a claim of its own: on names without a hyphen, a validly selected
    exclusion is rejected exactly when an entry of either list names the
    same parties. *)
Lemma addExclusion_rejects_iff (s : App) :
  constraints_ok s ->
  names_hyphen_free (exclusions s) -> names_hyphen_free (inclusions s) ->
  Js.falsy (exclude_party1 (form s)) = false ->
  exclude_party1 (form s) <> exclude_party2 (form s) ->
  hyphen_free (exclude_party1 (form s)) = true ->
  hyphen_free (exclude_party2 (form s)) = true ->
  outcome (addExclusion s) = Rejected <->
  already_listed s (proposal (exclude_party1 (form s)) (exclude_party2 (form s))).
Proof.
  intros [Hex Hin] Hfe Hfi H1 Hne Hf1 Hf2.
  unfold already_listed, proposal, addExclusion. rewrite H1.
  set (p1 := exclude_party1 (form s)) in *.
  set (p2 := exclude_party2 (form s)) in *.
  assert (Hcase : exists c, valid_exclusion c /\
                    Forall (fun n => hyphen_free n = true) c /\
                    same_names c (if Js.falsy p2 then [p1] else [p1; p2]) /\
                    (if Js.falsy p2 then [p1] else Js.sort [p1; p2]) = c).
  { destruct (Js.falsy p2).
    - exists [p1]. split; [apply singleton_valid |].
      split; [constructor; [exact Hf1 | constructor] |].
      split; [intro n; tauto | reflexivity].
    - destruct (sort_pair_valid p1 p2 Hne) as [Hv Hs].
      exists (Js.sort [p1; p2]).
      split; [apply valid_inclusion_exclusion, Hv |].
      split; [| split; [exact Hs | reflexivity]].
      rewrite Forall_forall. intros n Hn. apply Hs in Hn.
      simpl in Hn. destruct Hn as [<- | [<- | []]]; auto. }
  destruct Hcase as (c & Hvc & Hfc & Hsame & Hc).
  assert (Hout : outcome (addExclusion_checked c s) = Rejected <->
          Js.some (fun e => (Js.join "-" e =? Js.join "-" c)%string) (exclusions s)
          || Js.some (fun i => (Js.join "-" i =? Js.join "-" c)%string) (inclusions s)
          = true).
  { unfold addExclusion_checked. cbv zeta.
    do 2 (match goal with
          | |- context [Js.some ?f ?l] => destruct (Js.some f l); simpl; try tauto
          end).
    destruct (updateCoalitions _); simpl; split; discriminate. }
  apply String.eqb_neq in Hne. rewrite Hne.
  replace (if Js.falsy p2 then addExclusion_checked [p1] s
           else addExclusion_checked (Js.sort [p1; p2]) s)
    with (addExclusion_checked c s) by (destruct (Js.falsy p2); subst c; reflexivity).
  rewrite Hout, orb_true_iff.
  rewrite (some_join_iff (exclusions s) c valid_exclusion); auto.
  rewrite (some_join_iff (inclusions s) c valid_inclusion);
    auto using valid_inclusion_exclusion.
  split.
  - intros [(e & He & Hs) | (e & He & Hs)]; exists e; split; auto;
      intro n; rewrite (Hs n); apply Hsame.
  - intros (e & [He | He] & Hs); [left | right]; exists e; split; auto;
      intro n; rewrite (Hs n); symmetry; apply Hsame.
Qed.

Lemma addInclusion_rejects_iff (s : App) :
  constraints_ok s ->
  names_hyphen_free (exclusions s) -> names_hyphen_free (inclusions s) ->
  Js.falsy (include_party1 (form s)) = false ->
  Js.falsy (include_party2 (form s)) = false ->
  include_party1 (form s) <> include_party2 (form s) ->
  hyphen_free (include_party1 (form s)) = true ->
  hyphen_free (include_party2 (form s)) = true ->
  outcome (addInclusion s) = Rejected <->
  already_listed s [include_party1 (form s); include_party2 (form s)].
Proof.
  intros [Hex Hin] Hfe Hfi H1 H2 Hne Hf1 Hf2.
  unfold already_listed, addInclusion. rewrite H1, H2.
  set (p1 := include_party1 (form s)) in *.
  set (p2 := include_party2 (form s)) in *.
  destruct (sort_pair_valid p1 p2 Hne) as [Hv Hsame].
  assert (Hfc : Forall (fun n => hyphen_free n = true) (Js.sort [p1; p2])).
  { rewrite Forall_forall. intros n Hn. apply Hsame in Hn.
    simpl in Hn. destruct Hn as [<- | [<- | []]]; auto. }
  apply String.eqb_neq in Hne. rewrite Hne. cbv zeta. simpl orb. cbv iota.
  pose proof (some_join_iff (inclusions s) (Js.sort [p1; p2]) valid_inclusion
                valid_inclusion_exclusion Hin Hfi
                (valid_inclusion_exclusion _ Hv) Hfc) as Hi.
  pose proof (some_join_iff (exclusions s) (Js.sort [p1; p2]) valid_exclusion
                (fun e H => H) Hex Hfe
                (valid_inclusion_exclusion _ Hv) Hfc) as He.
  match type of Hi with (?b = true <-> _) => destruct b end.
  - split; [intros _ | reflexivity].
    destruct Hi as [Hi _]. destruct (Hi eq_refl) as (e & Hine & Hs).
    exists e. split; [right; exact Hine |].
    intro n. rewrite (Hs n). apply Hsame.
  - match type of He with (?b = true <-> _) => destruct b end.
    + split; [intros _ | reflexivity].
      destruct He as [He _]. destruct (He eq_refl) as (e & Hine & Hs).
      exists e. split; [left; exact Hine |].
      intro n. rewrite (Hs n). apply Hsame.
    + split.
      * destruct (updateCoalitions _); simpl; discriminate.
      * intros (e & [Hine | Hine] & Hs); exfalso.
        -- destruct He as [_ He]. apply Bool.diff_false_true, He.
           exists e. split; [exact Hine |].
           intro n. rewrite (Hs n). symmetry. apply Hsame.
        -- destruct Hi as [_ Hi]. apply Bool.diff_false_true, Hi.
           exists e. split; [exact Hine |].
           intro n. rewrite (Hs n). symmetry. apply Hsame.
Qed.

(** A rejected call shows one alert and leaves the whole state as it was. *)
Lemma rejected_is_alert_only (s : App) :
  (outcome (addExclusion s) = Rejected ->
   after (addExclusion s) = s /\
   exists msg, effects (addExclusion s) = [Alert msg]) /\
  (outcome (addInclusion s) = Rejected ->
   after (addInclusion s) = s /\
   exists msg, effects (addInclusion s) = [Alert msg]).
Proof.
  unfold addExclusion, addExclusion_checked, addInclusion. split.
  - destruct (Js.falsy (exclude_party1 (form s))); simpl; eauto.
    destruct (Js.falsy (exclude_party2 (form s))).
    + do 2 (match goal with
            | |- context [Js.some ?f ?l] => destruct (Js.some f l); simpl; eauto
            end).
      destruct (updateCoalitions _); simpl; discriminate.
    + destruct (_ =? _)%string; simpl; eauto.
      do 2 (match goal with
            | |- context [Js.some ?f ?l] => destruct (Js.some f l); simpl; eauto
            end).
      destruct (updateCoalitions _); simpl; discriminate.
  - destruct (Js.falsy (include_party1 (form s)) || Js.falsy (include_party2 (form s)));
      simpl; eauto.
    destruct (_ =? _)%string; simpl; eauto.
    do 2 (match goal with
          | |- context [Js.some ?f ?l] => destruct (Js.some f l); simpl; eauto
          end).
    destruct (updateCoalitions _); simpl; discriminate.
Qed.

(** C2, at the input where the code departs from it. With the
    single-party exclusion of "GL-PvdA" stored, the pair of "GL" and "PvdA"
    is refused both as an exclusion ("already exists") and as an inclusion
    ("already set as exclusions"), although no stored entry names these two
    parties: the arrays are compared through their hyphen-joined strings,
    and both join to "GL-PvdA". *)
Theorem joined_names_collide :
  exclusions merger_excluded = [["GL-PvdA"]] /\
  inclusions merger_excluded = [] /\
  ~ already_listed merger_excluded (proposal "GL" "PvdA") /\
  outcome (addExclusion (select_exclude "GL" "PvdA" merger_excluded)) = Rejected /\
  effects (addExclusion (select_exclude "GL" "PvdA" merger_excluded)) =
    [Alert "This exclusion already exists"] /\
  outcome (addInclusion (select_include "GL" "PvdA" merger_excluded)) = Rejected /\
  effects (addInclusion (select_include "GL" "PvdA" merger_excluded)) =
    [Alert "These parties are already set as exclusions"].
Proof.
  repeat split; try reflexivity.
  intros (e & Hin & Hsame).
  assert (e = ["GL-PvdA"]) as ->.
  { destruct Hin as [[<- | []] | []]. reflexivity. }
  destruct (Hsame "GL") as [_ Hback].
  destruct (Hback (or_introl eq_refl)) as [Heq | []].
  discriminate Heq.
Qed.

(** ** The seat counter *)

Section Seats.

Lemma includes_In (l : list string) (x : string) :
  Js.includes l x = true <-> In x l.
Proof.
  unfold Js.includes. rewrite existsb_exists. split.
  - intros (y & Hy & Heq). apply String.eqb_eq in Heq. subst. exact Hy.
  - intros Hin. exists x. split; [exact Hin | apply String.eqb_refl].
Qed.

Lemma fold_seats_acc (l : list Party) (acc : Z) :
  fold_left (fun sum p => sum + seats p) l acc =
  acc + fold_left (fun sum p => sum + seats p) l 0.
Proof.
  revert acc. induction l as [| p l IH]; intros acc; simpl.
  - lia.
  - rewrite (IH (acc + seats p)), (IH (seats p)). lia.
Qed.

Lemma coalitionSeats_cons (p : Party) (ps : list Party) (sel : list string) :
  coalitionSeats (p :: ps) sel =
  (if Js.includes sel (name p) then seats p else 0) + coalitionSeats ps sel.
Proof.
  unfold coalitionSeats. simpl.
  destruct (Js.includes sel (name p)); simpl.
  - apply fold_seats_acc.
  - reflexivity.
Qed.

Lemma coalitionSeats_checked (ps : list Party) (sel : list string) :
  coalitionSeats ps sel = checked_seats ps sel.
Proof.
  induction ps as [| p ps IH].
  - reflexivity.
  - rewrite coalitionSeats_cons, IH. simpl.
    destruct (in_dec string_dec (name p) sel) as [Hin | Hout].
    + apply includes_In in Hin. rewrite Hin. reflexivity.
    + destruct (Js.includes sel (name p)) eqn:E; [| reflexivity].
      apply includes_In in E. contradiction.
Qed.

Lemma shown_info_updateVisualization (s : App) :
  shown_info (updateVisualization s) =
  Some (coalitionInfo (parties s) (checked s)).
Proof. reflexivity. Qed.

Lemma displayed_seats_coalitionInfo (ps : list Party) (sel : list string) :
  displayed_seats (coalitionInfo ps sel) = coalitionSeats ps sel.
Proof.
  unfold coalitionInfo. destruct (76 <=? coalitionSeats ps sel); reflexivity.
Qed.

Lemma reports_majority_coalitionInfo (ps : list Party) (sel : list string) :
  reports_majority (coalitionInfo ps sel) = true <-> 76 <= coalitionSeats ps sel.
Proof.
  unfold coalitionInfo.
  destruct (Z.leb_spec 76 (coalitionSeats ps sel)); simpl; split;
    intros; try lia; try reflexivity; discriminate.
Qed.

End Seats.

(** C8. The seat count updateVisualization displays is the sum of the seats
    of exactly the roster parties whose names are checked; it is zero when
    nothing is checked. *)
Theorem displayed_seats_exact (s : App) :
  option_map displayed_seats (shown_info (updateVisualization s)) =
    Some (checked_seats (parties s) (checked s)) /\
  option_map displayed_seats (shown_info (updateVisualization (set_checked [] s))) =
    Some 0.
Proof.
  rewrite !shown_info_updateVisualization. simpl.
  rewrite !displayed_seats_coalitionInfo, !coalitionSeats_checked.
  split; [reflexivity |]. f_equal.
  induction (parties s) as [| p ps IH]; simpl; [reflexivity | exact IH].
Qed.

(** C1 fails as stated: with 60 of 100 seats the selection exceeds half of
    the roster's total, and is reported as 16 seats short. *)
Lemma majority_threshold_counterexample :
  ~ (forall s : App,
        majority_shown s = true <->
        totalSeats (parties s) < 2 * coalitionSeats (parties s) (checked s)).
Proof.
  intros H. specialize (H small_chamber).
  destruct H as [_ H].
  assert (E : majority_shown small_chamber = true) by (apply H; vm_compute; reflexivity).
  vm_compute in E. discriminate E.
Qed.

(** C1, amended. The selection is reported as a majority exactly when its
    seats reach the constant 76; that is the same as exceeding half of the
    roster's total when the roster sums to the 150 seats of the chamber. *)
Theorem majority_threshold_fixed (s : App) :
  (majority_shown s = true <-> 76 <= coalitionSeats (parties s) (checked s)) /\
  (totalSeats (parties s) = 150 ->
   (majority_shown s = true <->
    totalSeats (parties s) < 2 * coalitionSeats (parties s) (checked s))).
Proof.
  unfold majority_shown. rewrite shown_info_updateVisualization.
  pose proof (reports_majority_coalitionInfo (parties s) (checked s)) as Hm.
  split; [exact Hm |].
  intros Htot. rewrite Hm, Htot. lia.
Qed.

Lemma majority_threshold_fixed_witness :
  majority_shown chamber150 = true <->
  totalSeats (parties chamber150) <
  2 * coalitionSeats (parties chamber150) (checked chamber150).
Proof.
  destruct (majority_threshold_fixed chamber150) as [_ H].
  apply H. reflexivity.
Defined.

(** ** Who is shown where *)

Section Roster.

Lemma partyOptions_In (ps : list Party) (o : OptionEl) :
  In o (partyOptions ps) ->
  exists q, In q ps /\ 0 < seats q /\ o = mkOption (name q) (name q).
Proof.
  unfold partyOptions. rewrite in_map_iff.
  intros (q & <- & Hq). apply filter_In in Hq as [Hin Hpos].
  exists q. repeat split; auto. apply Z.ltb_lt, Hpos.
Qed.

Lemma updateSpectrum_In (s : App) (c : SpectrumParty) :
  In c (updateSpectrum s) ->
  exists q, In q (parties s) /\ seats q <> 0 /\ dataset_party c = name q.
Proof.
  unfold updateSpectrum.
  destruct (Qeq_bool (offsetWidth s) 0 || Qeq_bool (offsetHeight s) 0);
    rewrite in_flat_map; intros (q & Hq & Hc); exists q;
    (destruct (Z.eqb_spec (seats q) 0) as [Hz | Hnz]; [destruct Hc |]);
    destruct Hc as [<- | []]; auto.
Qed.

Lemma unique_name (ps : list Party) (p q : Party) :
  NoDup (map name ps) -> In p ps -> In q ps -> name p = name q -> p = q.
Proof.
  induction ps as [| r ps IH]; simpl; intros Hnd Hp Hq Heq; [destruct Hp |].
  inversion Hnd as [| ? ? Hout Hnd']; subst.
  destruct Hp as [-> | Hp], Hq as [-> | Hq]; auto.
  - exfalso. apply Hout. rewrite Heq. apply in_map, Hq.
  - exfalso. apply Hout. rewrite <- Heq. apply in_map, Hp.
Qed.

Lemma no_option_for_seatless (ps : list Party) (p : Party) (label : string) :
  NoDup (map name ps) -> In p ps -> seats p = 0 -> label <> "" ->
  ~ In (mkOption (name p) (name p)) (mkOption "" label :: partyOptions ps).
Proof.
  intros Hnd Hp Hz Hlabel [Hplace | Hopt].
  - injection Hplace as H1 H2. apply Hlabel. congruence.
  - apply partyOptions_In in Hopt as (q & Hq & Hpos & Heq).
    injection Heq as Hname.
    rewrite (unique_name ps p q Hnd Hp Hq Hname) in Hz. lia.
Qed.

End Roster.

(** C6. In a roster of uniquely named parties, a party with zero seats has
    no option in any of the four constraint dropdowns and no circle on the
    spectrum map, while the party table has one row per roster entry, in
    roster order, zero-seat parties included. *)
Theorem seatless_parties_only_in_table (s : App) (p : Party) :
  NoDup (map name (parties s)) ->
  In p (parties s) ->
  seats p = 0 ->
  (~ In (mkOption (name p) (name p)) (exclude1_options (snd (populateDropdowns s))) /\
   ~ In (mkOption (name p) (name p)) (exclude2_options (snd (populateDropdowns s))) /\
   ~ In (mkOption (name p) (name p)) (include1_options (snd (populateDropdowns s))) /\
   ~ In (mkOption (name p) (name p)) (include2_options (snd (populateDropdowns s)))) /\
  ~ In (name p) (map dataset_party (updateSpectrum s)) /\
  In (mkRow (name p) 0 (name p)) (snd (populatePartyTable s)) /\
  map cell_name (snd (populatePartyTable s)) = map name (parties s) /\
  map cell_seats (snd (populatePartyTable s)) = map seats (parties s).
Proof.
  intros Hnd Hp Hz. split; [| split; [| split; [| split]]].
  - simpl. repeat split; apply no_option_for_seatless; auto; discriminate.
  - rewrite in_map_iff. intros (c & Hname & Hc).
    apply updateSpectrum_In in Hc as (q & Hq & Hnz & Hcq).
    apply Hnz. rewrite <- (unique_name (parties s) p q Hnd Hp Hq); auto.
    congruence.
  - simpl. rewrite <- Hz.
    apply (in_map (fun party => mkRow (name party) (seats party) (name party))), Hp.
  - simpl. rewrite map_map. reflexivity.
  - simpl. rewrite map_map. reflexivity.
Qed.

Lemma seatless_parties_only_in_table_witness :
  ~ In (mkOption "50PLUS" "50PLUS")
       (exclude1_options (snd (populateDropdowns with_seatless))) /\
  ~ In "50PLUS" (map dataset_party (updateSpectrum with_seatless)) /\
  In (mkRow "50PLUS" 0 "50PLUS") (snd (populatePartyTable with_seatless)).
Proof.
  assert (Hnd : NoDup (map name (parties with_seatless))).
  { simpl. repeat constructor; simpl; intuition discriminate. }
  destruct (seatless_parties_only_in_table with_seatless
              (mkParty "50PLUS" 0 (-1 # 5) (-1 # 5)) Hnd
              (or_intror (or_introl eq_refl)) eq_refl)
    as ((H1 & _) & H2 & H3 & _).
  exact (conj H1 (conj H2 H3)).
Defined.

(** ** Reloading the roster *)

(** C7 fails as stated: when the minimum field exceeds the maximum field at
    the moment the answer arrives, the roster is replaced but no coalition
    query follows, neither after a change of poll nor after a drag. *)
Lemma requery_counterexample :
  ~ (forall (s : App) (data : Response),
        success data = true ->
        requests_coalitions (snd (changePoll_then data s)) = true /\
        requests_coalitions (snd (handleMouseUp_then (Some data) s)) = true).
Proof.
  intros H.
  destruct (H inverted (mkResponse true (parties chamber150) 150) eq_refl) as [H1 _].
  vm_compute in H1. discriminate H1.
Qed.

(** C7, amended. On a successful answer, a change of poll and a drag
    release both replace the whole roster by the one of the answer, redraw
    the map from it, and call updateCoalitions, which sends a coalition
    query with the current bounds and constraint lists unless the minimum
    field exceeds the maximum field; in that case no query is sent. *)
Theorem roster_replaced_then_requery (s : App) (data : Response) :
  success data = true ->
  (parties (fst (changePoll_then data s)) = data_parties data /\
   parties (fst (handleMouseUp_then (Some data) s)) = data_parties data) /\
  (In (RenderSpectrum (updateSpectrum (set_checked [] (set_parties (data_parties data) s))))
      (snd (changePoll_then data s)) /\
   In (RenderSpectrum (updateSpectrum (set_parties (data_parties data) s)))
      (snd (handleMouseUp_then (Some data) s))) /\
  (Js.gt (min_parties (form s)) (max_parties (form s)) = false ->
   In (FetchCoalitions (min_parties (form s)) (max_parties (form s))
                       (exclusions s) (inclusions s))
      (snd (changePoll_then data s)) /\
   In (FetchCoalitions (min_parties (form s)) (max_parties (form s))
                       (exclusions s) (inclusions s))
      (snd (handleMouseUp_then (Some data) s))) /\
  (Js.gt (min_parties (form s)) (max_parties (form s)) = true ->
   requests_coalitions (snd (changePoll_then data s)) = false /\
   requests_coalitions (snd (handleMouseUp_then (Some data) s)) = false).
Proof.
  intros Hok. unfold changePoll_then, handleMouseUp_then. rewrite Hok.
  unfold updateCoalitions. simpl.
  destruct (Js.gt (min_parties (form s)) (max_parties (form s))) eqn:Hgt; simpl.
  - split; [auto |]. split; [| split; [discriminate |]].
    + split; [right; right; right; right; right; left; reflexivity
             | left; reflexivity].
    + intros _. split; [reflexivity |].
      destruct (dragParty (dragState s)) as [dragged |]; [| reflexivity].
      destruct (find _ _); reflexivity.
  - split; [auto |]. split; [| split; [| discriminate]].
    + split; [right; right; right; right; right; left; reflexivity
             | left; reflexivity].
    + intros _. split; [right; right; right; right; left; reflexivity
                       | right; left; reflexivity].
Qed.

Lemma roster_replaced_then_requery_witness :
  parties (fst (changePoll_then (mkResponse true (parties chamber150) 150) busy))
    = parties chamber150 /\
  In (FetchCoalitions (Js.Num 2) (Js.Num 4) (exclusions busy) (inclusions busy))
     (snd (handleMouseUp_then (Some (mkResponse true (parties chamber150) 150)) busy)).
Proof.
  destruct (roster_replaced_then_requery busy
              (mkResponse true (parties chamber150) 150) eq_refl)
    as ((H1 & _) & _ & H2 & _).
  split; [exact H1 | apply (H2 eq_refl)].
Defined.

(** ** Coordinates, read exactly *)

Section ExactCoordinates.
Local Open Scope Q_scope.

(** [Math.max(padding, Math.min(dimension - padding, mouse))] stays
    between the two paddings. *)
Lemma constrained_bounds (dimension mouse : Q) :
  100 < dimension ->
  50 <= Qmax 50 (Qmin (dimension - 50) mouse) <= dimension - 50.
Proof.
  intros Hd. split.
  - apply Q.le_max_l.
  - apply Q.max_lub; [lra | apply Q.le_min_l].
Qed.

(** ... and leaves a point between the paddings where it is. *)
Lemma constrained_inside (dimension mouse : Q) :
  50 <= mouse <= dimension - 50 ->
  Qmax 50 (Qmin (dimension - 50) mouse) == mouse.
Proof.
  intros [Hlo Hhi].
  assert (Hmin : Qmin (dimension - 50) mouse == mouse) by (apply Q.min_r, Hhi).
  rewrite Q.max_r; [exact Hmin |].
  rewrite Hmin. exact Hlo.
Qed.

(** The pixel-to-coordinate line of [handleMouseUp] on a constrained
    pixel. *)
Lemma to_coordinate_bounds (usable c : Q) :
  0 < usable -> 50 <= c <= usable + 50 ->
  -1 <= ((c - 50) / usable) * 2 - 1 <= 1.
Proof.
  intros Hu [Hlo Hhi].
  assert (H0 : 0 <= (c - 50) / usable).
  { apply Qle_shift_div_l; [exact Hu | lra]. }
  assert (H1 : (c - 50) / usable <= 1).
  { apply Qle_shift_div_r; [exact Hu | lra]. }
  lra.
Qed.

Lemma releasePosition_bounds (rect : Rect Q) (clientX clientY : Q) :
  100 < width rect -> 100 < height rect ->
  -1 <= fst (releasePosition rect clientX clientY) <= 1 /\
  -1 <= snd (releasePosition rect clientX clientY) <= 1.
Proof.
  intros Hw Hh. unfold releasePosition, padding. simpl.
  change (inject_Z 50) with 50. change (inject_Z 2) with 2.
  change (inject_Z 1) with 1.
  pose proof (constrained_bounds (width rect) (clientX - left rect) Hw) as Hx.
  pose proof (constrained_bounds (height rect) (clientY - top rect) Hh) as Hy.
  split.
  - apply to_coordinate_bounds; lra.
  - assert (-1 <= ((Qmax 50 (Qmin (height rect - 50) (clientY - top rect)) - 50)
                   / (height rect - 50 * 2)) * 2 - 1 <= 1)
      by (apply to_coordinate_bounds; lra).
    lra.
Qed.

Lemma spectrumPosition_inside (w h e so : Q) :
  -1 <= e <= 1 -> -1 <= so <= 1 -> 100 < w -> 100 < h ->
  50 <= fst (spectrumPosition w h e so) <= w - 50 /\
  50 <= snd (spectrumPosition w h e so) <= h - 50.
Proof.
  intros He Hs Hw Hh. unfold spectrumPosition, padding. simpl.
  change (inject_Z 50) with 50. change (inject_Z 2) with 2.
  change (inject_Z 1) with 1.
  assert (Ee : (e + 1) / 2 == (e + 1) * (1 # 2)) by (field).
  assert (Es : (- so + 1) / 2 == (- so + 1) * (1 # 2)) by (field).
  rewrite Ee, Es. split; split; nra.
Qed.

End ExactCoordinates.

Section RoundTrip.
Local Open Scope Q_scope.

Lemma to_coordinate_of_pixel (usable v : Q) :
  0 < usable ->
  (((50 + ((v + 1) / 2) * usable) - 50) / usable) * 2 - 1 == v.
Proof.
  intros Hu. field. intro Hz. rewrite Hz in Hu. apply (Qlt_irrefl 0), Hu.
Qed.

(** C9, amended. In exact arithmetic the two mappings are mutual
    inverses: for coordinates in [-1, 1] and a container wider and higher
    than twice the padding, releasing the mouse on the pixel where
    updateSpectrum places a party gives back its economic and social
    values. *)
Theorem release_on_position_exact (rect : Rect Q) (e so : Q) :
  -1 <= e <= 1 -> -1 <= so <= 1 ->
  100 < width rect -> 100 < height rect ->
  fst (releasePosition rect
         (left rect + fst (spectrumPosition (width rect) (height rect) e so))
         (top rect + snd (spectrumPosition (width rect) (height rect) e so)))
    == e /\
  snd (releasePosition rect
         (left rect + fst (spectrumPosition (width rect) (height rect) e so))
         (top rect + snd (spectrumPosition (width rect) (height rect) e so)))
    == so.
Proof.
  intros He Hs Hw Hh.
  destruct (spectrumPosition_inside (width rect) (height rect) e so He Hs Hw Hh)
    as [Hx Hy].
  revert Hx Hy. unfold releasePosition, spectrumPosition, padding. simpl.
  change (inject_Z 50) with 50. change (inject_Z 2) with 2.
  change (inject_Z 1) with 1.
  set (x := 50 + (e + 1) / 2 * (width rect - 50 * 2)).
  set (y := 50 + (- so + 1) / 2 * (height rect - 50 * 2)).
  intros Hx Hy.
  assert (Ex : left rect + x - left rect == x) by ring.
  assert (Ey : top rect + y - top rect == y) by ring.
  assert (Cx : Qmax 50 (Qmin (width rect - 50) (left rect + x - left rect)) == x).
  { rewrite <- Ex at 2. apply constrained_inside. rewrite Ex. exact Hx. }
  assert (Cy : Qmax 50 (Qmin (height rect - 50) (top rect + y - top rect)) == y).
  { rewrite <- Ey at 2. apply constrained_inside. rewrite Ey. exact Hy. }
  rewrite Cx, Cy. unfold x, y. split.
  - apply to_coordinate_of_pixel. lra.
  - rewrite to_coordinate_of_pixel by lra. ring.
Qed.

Lemma release_on_position_exact_witness :
  fst (releasePosition (mkRect 10 20 400 300)
         (10 + fst (spectrumPosition 400 300 (1 # 10) (-3 # 5)))
         (20 + snd (spectrumPosition 400 300 (1 # 10) (-3 # 5))))
    == 1 # 10 /\
  snd (releasePosition (mkRect 10 20 400 300)
         (10 + fst (spectrumPosition 400 300 (1 # 10) (-3 # 5)))
         (20 + snd (spectrumPosition 400 300 (1 # 10) (-3 # 5))))
    == -3 # 5.
Proof.
  apply (release_on_position_exact (mkRect 10 20 400 300) (1 # 10) (-3 # 5));
    simpl; lra.
Defined.

(** C10. Whatever the release point, when the dragged container is wider
    and higher than 100 pixels the request to /api/update_position
    carries an economic and a social value within [-1, 1]. *)
Theorem update_position_in_range
        (s : App) (party : Party) (rect : Rect Q) (clientX clientY : Q) :
  dragState s = mkDrag true (Some party) (Some rect) ->
  100 < width rect -> 100 < height rect ->
  exists economic social,
    handleMouseUp clientX clientY s =
      [FetchUpdatePosition (name party) economic social] /\
    -1 <= economic <= 1 /\ -1 <= social <= 1.
Proof.
  intros Hdrag Hw Hh. unfold handleMouseUp. rewrite Hdrag.
  cbn [isDragging dragParty containerRect].
  pose proof (releasePosition_bounds rect clientX clientY Hw Hh) as Hb.
  destruct (releasePosition rect clientX clientY) as [economic social].
  exists economic, social. split; [reflexivity | exact Hb].
Qed.

Lemma update_position_in_range_witness :
  exists economic social,
    handleMouseUp 5000 (-70) dragging =
      [FetchUpdatePosition "A" economic social] /\
    -1 <= economic <= 1 /\ -1 <= social <= 1.
Proof.
  apply (update_position_in_range dragging (mkParty "A" 50 (-4 # 5) (1 # 2))
           (mkRect 10 20 400 300) 5000 (-70));
    [reflexivity | simpl; lra | simpl; lra].
Defined.

End RoundTrip.

(** ** Coordinates, as executed *)

Module Executed.
Import PrimFloat Binary64 Sample64.
Local Open Scope float_scope.

Lemma position_of_tenth :
  spectrumPosition 400%float 400%float tenth 0%float = (215%float, 200%float).
Proof. vm_compute. reflexivity. Qed.

(** A release far outside the container is constrained to its border
    and sends the corner values. *)
Lemma release_outside_container :
  releasePosition container 1000000000 (-1000000000) = (1, 1) /\
  releasePosition container (-1000000000) 1000000000 = (-1, -1).
Proof. split; vm_compute; reflexivity. Qed.

Lemma release_of_tenth :
  fst (releasePosition container 215%float 200%float) = tenth_back.
Proof. vm_compute. reflexivity. Qed.

(** C9 fails as stated: in binary64 a party at economic 0.1 in a 400 by
    400 container is placed at pixel 215, and a release on that pixel
    sends 0.10000000000000009, not 0.1. *)
Lemma release_on_position_counterexample :
  ~ (forall (rect : Rect float) (e so : float),
        PrimFloat.leb (-1) e = true -> PrimFloat.leb e 1 = true ->
        PrimFloat.leb (-1) so = true -> PrimFloat.leb so 1 = true ->
        PrimFloat.ltb 100 (width rect) = true ->
        PrimFloat.ltb 100 (height rect) = true ->
        PrimFloat.eqb
          (fst (releasePosition rect
                  (left rect + fst (spectrumPosition (width rect) (height rect) e so))
                  (top rect + snd (spectrumPosition (width rect) (height rect) e so))))
          e = true).
Proof.
  intros H.
  specialize (H container tenth 0%float eq_refl eq_refl eq_refl eq_refl
                eq_refl eq_refl).
  vm_compute in H. discriminate H.
Qed.

End Executed.

(** * Further properties of the client *)

(** ** Labels of the circles *)

Section Labels.

Lemma append_assoc (a b c : string) :
  ((a ++ b) ++ c)%string = (a ++ (b ++ c))%string.
Proof.
  induction a as [| x a IH]; simpl; [reflexivity | rewrite IH; reflexivity].
Qed.

Lemma length_append (a b : string) :
  String.length (a ++ b) = (String.length a + String.length b)%nat.
Proof.
  induction a as [| x a IH]; simpl; [reflexivity | rewrite IH; reflexivity].
Qed.

Lemma is_prefix_refl (s : string) : is_prefix s s.
Proof.
  exists EmptyString. induction s as [| x s IH]; simpl; [reflexivity |].
  rewrite <- IH. reflexivity.
Qed.

Lemma is_prefix_length (a s : string) :
  is_prefix a s -> (String.length a <= String.length s)%nat.
Proof. intros [rest ->]. rewrite length_append. lia. Qed.

Lemma substring0_prefix (n : nat) (s : string) :
  is_prefix (JsString.substring0 n s) s.
Proof.
  unfold JsString.substring0. revert n.
  induction s as [| x s IH]; intros [| n]; simpl.
  - exists EmptyString. reflexivity.
  - exists EmptyString. reflexivity.
  - exists (String x s). reflexivity.
  - destruct (IH n) as [rest Hrest]. exists rest. simpl. rewrite <- Hrest.
    reflexivity.
Qed.

Lemma substring0_length (n : nat) (s : string) :
  String.length (JsString.substring0 n s) = Nat.min n (String.length s).
Proof.
  unfold JsString.substring0. revert n.
  induction s as [| x s IH]; intros [| n]; simpl; auto.
Qed.

Lemma split_not_nil (c : ascii) (s : string) : JsString.split c s <> [].
Proof.
  destruct s as [| d r]; simpl; [discriminate |].
  destruct (Ascii.eqb d c); [discriminate |].
  destruct (JsString.split c r); discriminate.
Qed.

(** Joining the parts of a split with the separator gives the string
    back. *)
Lemma join_split (c : ascii) (s : string) :
  Js.join (String c EmptyString) (JsString.split c s) = s.
Proof.
  induction s as [| d r IH]; simpl; [reflexivity |].
  destruct (Ascii.eqb_spec d c) as [-> | Hne].
  - pose proof (split_not_nil c r) as Hnil.
    destruct (JsString.split c r) as [| part parts]; [contradiction |].
    simpl in *. rewrite IH. reflexivity.
  - destruct (JsString.split c r) as [| part parts] eqn:E.
    + exfalso. apply (split_not_nil c r E).
    + destruct parts as [| part' parts]; simpl in *; rewrite <- IH; reflexivity.
Qed.

Lemma contains_hyphen_free (s : string) :
  JsString.contains "-" s = negb (hyphen_free s).
Proof.
  induction s as [| d r IH]; simpl; [reflexivity |].
  rewrite IH. destruct (Ascii.eqb d "-"); reflexivity.
Qed.

End Labels.

(** X1. The label getPartyAbbreviation gives a circle is always a
    beginning of the party's name, hence never longer than it, and it is
    empty only for the empty name. *)
Theorem abbreviation_is_prefix (partyName : string) :
  is_prefix (getPartyAbbreviation partyName) partyName /\
  (String.length (getPartyAbbreviation partyName) <= String.length partyName)%nat /\
  (getPartyAbbreviation partyName = "" <-> partyName = "").
Proof.
  assert (Hp : is_prefix (getPartyAbbreviation partyName) partyName).
  { unfold getPartyAbbreviation.
    destruct (String.eqb_spec partyName "GL-PvdA") as [-> | _];
      [apply is_prefix_refl |].
    destruct (String.length partyName <=? 7)%nat; [apply is_prefix_refl |].
    destruct (JsString.contains "-" partyName); [| apply substring0_prefix].
    pose proof (join_split "-" partyName) as Hjoin.
    destruct (JsString.split "-" partyName) as [| a [| b [| ? ?]]]; simpl;
      try apply substring0_prefix.
    destruct (String.length partyName <=? 8)%nat; [apply is_prefix_refl |].
    destruct (substring0_prefix 2 b) as [rest Hrest].
    exists rest. rewrite <- Hjoin. simpl.
    rewrite !append_assoc. simpl. rewrite <- Hrest. reflexivity. }
  split; [exact Hp |]. split; [apply is_prefix_length, Hp |].
  split.
  - unfold getPartyAbbreviation.
    destruct (String.eqb_spec partyName "GL-PvdA") as [-> | _]; [discriminate |].
    destruct (Nat.leb_spec (String.length partyName) 7) as [_ | Hlong]; [auto |].
    intros Hempty. exfalso.
    assert (H5 : String.length (JsString.substring0 5 partyName) = 5%nat)
      by (rewrite substring0_length; lia).
    destruct (JsString.contains "-" partyName);
      [| rewrite Hempty in H5; discriminate H5].
    destruct (JsString.split "-" partyName) as [| a [| b [| ? ?]]];
      simpl in Hempty; try (rewrite Hempty in H5; discriminate H5).
    destruct (Nat.leb_spec (String.length partyName) 8) as [_ | _].
    + rewrite Hempty in Hlong. simpl in Hlong. lia.
    + apply (f_equal String.length) in Hempty.
      rewrite length_append in Hempty. simpl in Hempty. lia.
  - intros ->. reflexivity.
Qed.

(** X2. A name without a hyphen is shown in full when it has at most 7
    characters and is cut to its first 5 characters otherwise; its label
    never exceeds 7 characters. *)
Theorem abbreviation_without_hyphen (partyName : string) :
  hyphen_free partyName = true ->
  getPartyAbbreviation partyName =
    (if (String.length partyName <=? 7)%nat then partyName
     else JsString.substring0 5 partyName) /\
  (String.length (getPartyAbbreviation partyName) <= 7)%nat.
Proof.
  intros Hfree.
  assert (Heq : getPartyAbbreviation partyName =
                (if (String.length partyName <=? 7)%nat then partyName
                 else JsString.substring0 5 partyName)).
  { unfold getPartyAbbreviation.
    destruct (String.eqb_spec partyName "GL-PvdA") as [-> | _];
      [discriminate Hfree |].
    rewrite contains_hyphen_free, Hfree. reflexivity. }
  split; [exact Heq |]. rewrite Heq.
  destruct (Nat.leb_spec (String.length partyName) 7); [assumption |].
  rewrite substring0_length. lia.
Qed.

Lemma abbreviation_without_hyphen_witness :
  getPartyAbbreviation "Volt" = "Volt" /\
  getPartyAbbreviation "BoerBurgerBeweging" = "BoerB".
Proof.
  destruct (abbreviation_without_hyphen "Volt" eq_refl) as [H1 _].
  destruct (abbreviation_without_hyphen "BoerBurgerBeweging" eq_refl) as [H2 _].
  split; [exact H1 | exact H2].
Defined.

(** X3. A longer name with exactly one hyphen keeps its first part, the
    hyphen and at most two characters of the second part, so its label can
    be longer than 7 characters. *)
Theorem abbreviation_with_one_hyphen (a b : string) :
  hyphen_free a = true -> hyphen_free b = true ->
  (8 < String.length a + 1 + String.length b)%nat ->
  getPartyAbbreviation (a ++ "-" ++ b) = (a ++ "-" ++ JsString.substring0 2 b)%string.
Proof.
  intros Ha Hb Hlen.
  assert (Hsplit : forall a, hyphen_free a = true ->
            JsString.split "-" (a ++ "-" ++ b) = [a; b]).
  { clear Ha Hlen a. induction a as [| x a IH]; intros Ha; simpl in *.
    - assert (Hb' : JsString.split "-" b = [b]).
      { induction b as [| y b IHb]; simpl in *; [reflexivity |].
        apply andb_true_iff in Hb as [Hy Hb].
        apply negb_true_iff in Hy. rewrite Hy, (IHb Hb). reflexivity. }
      rewrite Hb'. reflexivity.
    - apply andb_true_iff in Ha as [Hx Ha].
      apply negb_true_iff in Hx. rewrite Hx, (IH Ha). reflexivity. }
  assert (Hl : String.length (a ++ "-" ++ b) =
               (String.length a + 1 + String.length b)%nat).
  { rewrite !length_append. simpl. lia. }
  unfold getPartyAbbreviation.
  destruct (String.eqb_spec (a ++ "-" ++ b) "GL-PvdA") as [Heq | _].
  { rewrite Heq in Hl. simpl in Hl. lia. }
  rewrite Hl.
  destruct (Nat.leb_spec (String.length a + 1 + String.length b) 7); [lia |].
  destruct (Nat.leb_spec (String.length a + 1 + String.length b) 8); [lia |].
  rewrite contains_hyphen_free.
  assert (Hh : hyphen_free (a ++ "-" ++ b) = false) by (apply hyphen_in_pair).
  rewrite Hh, (Hsplit a Ha). reflexivity.
Qed.

Lemma abbreviation_with_one_hyphen_witness :
  getPartyAbbreviation "ChristenUnie-SGP" = "ChristenUnie-SG".
Proof.
  apply (abbreviation_with_one_hyphen "ChristenUnie" "SGP");
    [reflexivity | reflexivity | simpl; lia].
Defined.

(** ** Colours *)

Section Rounding.
Local Open Scope Q_scope.






End Rounding.

Section Colours.
Local Open Scope Q_scope.









End Colours.

(** ** The frame of the map and the drag *)

Section Frame.
Local Open Scope Q_scope.

(** X8. The frame createSVGElements draws agrees with the placement of the
    circles: the horizontal axis runs from economic -1 to +1 at social 0,
    the vertical axis from social +1 at the top to -1 at the bottom at
    economic 0, and each quadrant label sits at the coordinates of
    absolute value 1/2 of the quadrant it names. *)
Theorem frame_matches_placement (w h : Q) :
  let svg := createSVGElements w h 50 in
  same_point (x1 (xAxis svg), y1 (xAxis svg)) (spectrumPosition w h (-1) 0) /\
  same_point (x2 (xAxis svg), y2 (xAxis svg)) (spectrumPosition w h 1 0) /\
  same_point (x1 (yAxis svg), y1 (yAxis svg)) (spectrumPosition w h 0 1) /\
  same_point (x2 (yAxis svg), y2 (yAxis svg)) (spectrumPosition w h 0 (-1)) /\
  exists lp rp lc rc,
    quadrantLabels svg = [lp; rp; lc; rc] /\
    placed lp "Left-Progressive" (spectrumPosition w h (-1 # 2) (1 # 2)) /\
    placed rp "Right-Progressive" (spectrumPosition w h (1 # 2) (1 # 2)) /\
    placed lc "Left-Conservative" (spectrumPosition w h (-1 # 2) (-1 # 2)) /\
    placed rc "Right-Conservative" (spectrumPosition w h (1 # 2) (-1 # 2)).
Proof.
  unfold same_point, placed, same_point, spectrumPosition, padding,
    createSVGElements. simpl.
  change (inject_Z 50) with 50. change (inject_Z 2) with 2.
  change (inject_Z 1) with 1.
  repeat split; try field.
  do 4 eexists. split; [reflexivity |].
  repeat split; simpl; field.
Qed.

(** X9. The circle lands where it was dropped: for a container wider and
    higher than 100 pixels, placing the coordinates that handleMouseUp
    sends gives the constrained position handleMouseMove showed last, in
    exact arithmetic. *)
Theorem drop_lands_where_shown (rect : Rect Q) (clientX clientY : Q) :
  100 < width rect -> 100 < height rect ->
  same_point
    (spectrumPosition (width rect) (height rect)
       (fst (releasePosition rect clientX clientY))
       (snd (releasePosition rect clientX clientY)))
    (dragPosition rect clientX clientY).
Proof.
  intros Hw Hh.
  unfold same_point, spectrumPosition, releasePosition, dragPosition, padding.
  simpl.
  change (inject_Z 50) with 50. change (inject_Z 2) with 2.
  change (inject_Z 1) with 1.
  split; field; intro Hz; lra.
Qed.

Lemma drop_lands_where_shown_witness :
  same_point
    (spectrumPosition 400 300
       (fst (releasePosition (mkRect 10 20 400 300) 217 5000))
       (snd (releasePosition (mkRect 10 20 400 300) 217 5000)))
    (dragPosition (mkRect 10 20 400 300) 217 5000).
Proof.
  apply (drop_lands_where_shown (mkRect 10 20 400 300) 217 5000); simpl; lra.
Defined.

Lemma constrained_bounds_wide (dimension mouse : Q) :
  100 <= dimension ->
  50 <= Qmax 50 (Qmin (dimension - 50) mouse) <= dimension - 50.
Proof.
  intros Hd. split.
  - apply Q.le_max_l.
  - apply Q.max_lub; [lra | apply Q.le_min_l].
Qed.

Lemma constrained_narrow (dimension mouse : Q) :
  dimension < 100 -> Qmax 50 (Qmin (dimension - 50) mouse) == 50.
Proof.
  intros Hd. apply Q.max_l.
  apply Qle_trans with (dimension - 50); [apply Q.le_min_l | lra].
Qed.

(** X10. While a party is dragged over a container at least 100 pixels
    wide and high, handleMouseMove moves the circle of that party and keeps
    it inside the padded area, wherever the mouse is. *)
Theorem dragged_circle_stays_inside
        (s : App) (party : Party) (rect : Rect Q) (clientX clientY : Q)
        (moved : string) (position : Q * Q) :
  dragState s = mkDrag true (Some party) (Some rect) ->
  100 <= width rect -> 100 <= height rect ->
  handleMouseMove clientX clientY s = Some (moved, position) ->
  moved = name party /\
  position = dragPosition rect clientX clientY /\
  in_padded_area (width rect) (height rect) position.
Proof.
  intros Hdrag Hw Hh. unfold handleMouseMove. rewrite Hdrag.
  cbn [isDragging dragParty containerRect].
  destruct (existsb _ _); [| discriminate].
  intros Heq. injection Heq as <- <-.
  split; [reflexivity |]. split; [reflexivity |].
  unfold in_padded_area, dragPosition, padding. simpl.
  change (inject_Z 50) with 50.
  split; apply constrained_bounds_wide; assumption.
Qed.

Lemma dragged_circle_stays_inside_witness :
  exists position,
    handleMouseMove 5000 (-70) dragging = Some ("A", position) /\
    in_padded_area 400 300 position.
Proof.
  exists (dragPosition (mkRect 10 20 400 300) 5000 (-70)).
  split; [reflexivity |].
  apply (dragged_circle_stays_inside dragging (mkParty "A" 50 (-4 # 5) (1 # 2))
           (mkRect 10 20 400 300) 5000 (-70) "A");
    [reflexivity | simpl; lra | simpl; lra | reflexivity].
Defined.

(** X11. In a container narrower than the two paddings every release
    sends economic -1, and in one lower than the two paddings every
    release sends social +1, whatever the release point. *)
Theorem release_in_narrow_container (rect : Rect Q) (clientX clientY : Q) :
  (width rect < 100 -> fst (releasePosition rect clientX clientY) == -1) /\
  (height rect < 100 -> snd (releasePosition rect clientX clientY) == 1).
Proof.
  unfold releasePosition, padding. simpl.
  change (inject_Z 50) with 50. change (inject_Z 2) with 2.
  change (inject_Z 1) with 1.
  split; intros Hd.
  - rewrite (constrained_narrow (width rect) (clientX - left rect) Hd).
    field. intro Hz. lra.
  - rewrite (constrained_narrow (height rect) (clientY - top rect) Hd).
    field. intro Hz. lra.
Qed.

Lemma release_in_narrow_container_witness :
  fst (releasePosition (mkRect 0 0 80 60) 45 33) == -1 /\
  snd (releasePosition (mkRect 0 0 80 60) 45 33) == 1.
Proof.
  destruct (release_in_narrow_container (mkRect 0 0 80 60) 45 33) as [He Hs].
  split; [apply He | apply Hs]; simpl; lra.
Defined.

End Frame.

(** ** The life of a drag *)

(** X12. A drag is consumed once: after startDrag a release sends one
    position update for the dragged party; once the answer has been
    handled, whatever it was, the drag state is reset and further mouse
    releases and moves do nothing; and without a drag a release or a move
    does nothing at all. *)
Theorem drag_is_consumed_once
        (s : App) (party : Party) (rect : Rect Q) (answer : option Response)
        (clientX clientY : Q) :
  handleMouseUp clientX clientY (startDrag party rect s) =
    [FetchUpdatePosition (name party)
       (fst (releasePosition rect clientX clientY))
       (snd (releasePosition rect clientX clientY))] /\
  dragState (fst (handleMouseUp_then answer (startDrag party rect s))) =
    mkDrag false None None /\
  handleMouseUp clientX clientY
    (fst (handleMouseUp_then answer (startDrag party rect s))) = [] /\
  handleMouseMove clientX clientY
    (fst (handleMouseUp_then answer (startDrag party rect s))) = None /\
  handleMouseUp clientX clientY
    (set_dragState (mkDrag false (dragParty (dragState s))
                           (containerRect (dragState s))) s) = [] /\
  handleMouseMove clientX clientY
    (set_dragState (mkDrag false (dragParty (dragState s))
                           (containerRect (dragState s))) s) = None.
Proof.
  assert (Hreset : dragState (fst (handleMouseUp_then answer (startDrag party rect s)))
                   = mkDrag false None None).
  { unfold handleMouseUp_then.
    destruct answer as [data |]; [destruct (success data) |]; try reflexivity.
    destruct (updateCoalitions _). reflexivity. }
  split.
  - unfold handleMouseUp, startDrag. simpl.
    destruct (releasePosition rect clientX clientY). reflexivity.
  - split; [exact Hreset |].
    unfold handleMouseUp, handleMouseMove. rewrite Hreset. simpl. auto.
Qed.

(** X13. An update or a poll change that fails changes nothing the user
    sees: when the server answers without success, or the position request
    itself fails, the roster, the constraint lists, the selection and the
    form stay as they were, nothing is redrawn and no coalition query is
    sent. *)
Theorem failed_answers_change_nothing (s : App) (data : Response) :
  success data = false ->
  changePoll_then data s = (s, []) /\
  (let r := handleMouseUp_then (Some data) s in
   parties (fst r) = parties s /\ exclusions (fst r) = exclusions s /\
   inclusions (fst r) = inclusions s /\ checked (fst r) = checked s /\
   form (fst r) = form s /\ snd r = []) /\
  (let r := handleMouseUp_then None s in
   parties (fst r) = parties s /\ exclusions (fst r) = exclusions s /\
   inclusions (fst r) = inclusions s /\ checked (fst r) = checked s /\
   form (fst r) = form s /\ requests_coalitions (snd r) = false).
Proof.
  intros Hfail. unfold changePoll_then, handleMouseUp_then. rewrite Hfail.
  simpl. repeat split.
Qed.

Lemma failed_answers_change_nothing_witness :
  changePoll_then (mkResponse false [] 0) busy = (busy, []) /\
  parties (fst (handleMouseUp_then (Some (mkResponse false [] 0)) dragging)) =
    parties dragging.
Proof.
  destruct (failed_answers_change_nothing busy (mkResponse false [] 0) eq_refl)
    as [H1 _].
  destruct (failed_answers_change_nothing dragging (mkResponse false [] 0) eq_refl)
    as (_ & (H2 & _) & _).
  split; [exact H1 | exact H2].
Defined.

(** X14. The constraint lists survive every answer: neither a change of
    poll nor a position update, successful or not, touches the exclusions
    or the inclusions, also when the new roster no longer has the parties
    they name; a position update keeps the checked selection too. *)
Theorem answers_keep_constraints (s : App) (data : Response) (answer : option Response) :
  exclusions (fst (changePoll_then data s)) = exclusions s /\
  inclusions (fst (changePoll_then data s)) = inclusions s /\
  exclusions (fst (handleMouseUp_then answer s)) = exclusions s /\
  inclusions (fst (handleMouseUp_then answer s)) = inclusions s /\
  checked (fst (handleMouseUp_then answer s)) = checked s.
Proof.
  unfold changePoll_then, handleMouseUp_then, updateCoalitions.
  repeat split.
  1, 2: destruct (success data); simpl; [| reflexivity];
    match goal with |- context [Js.gt ?a ?b] => destruct (Js.gt a b) end;
    reflexivity.
  all: destruct answer as [d |]; [destruct (success d) |]; simpl;
    try reflexivity;
    match goal with |- context [Js.gt ?a ?b] => destruct (Js.gt a b) end;
    reflexivity.
Qed.

(** ** More on the constraint lists *)

Section Entries.

Lemma some_join_false (k : string) (l : list Constraint) :
  Js.some (fun e => (Js.join "-" e =? k)%string) l = false <->
  ~ In k (map (Js.join "-") l).
Proof.
  unfold Js.some. rewrite in_map_iff. split.
  - intros Hnone (e & <- & Hin).
    assert (Hsome : existsb (fun e0 => (Js.join "-" e0 =? Js.join "-" e)%string) l = true).
    { apply existsb_exists. exists e. split; [exact Hin | apply String.eqb_refl]. }
    congruence.
  - intros Hnot. apply Bool.not_true_is_false. intros Hsome.
    apply existsb_exists in Hsome as (e & Hin & Heq).
    apply String.eqb_eq in Heq. apply Hnot. exists e. auto.
Qed.

Lemma some_join_true (k : string) (l : list Constraint) :
  Js.some (fun e => (Js.join "-" e =? k)%string) l = true <->
  In k (map (Js.join "-") l).
Proof.
  unfold Js.some. rewrite in_map_iff, existsb_exists. split.
  - intros (e & Hin & Heq). apply String.eqb_eq in Heq. exists e. auto.
  - intros (e & Heq & Hin). exists e. split; [exact Hin |].
    apply String.eqb_eq, Heq.
Qed.

(** The path of [addExclusion] after the form has been read. *)
Lemma addExclusion_entry (s : App) :
  outcome (addExclusion s) = Added ->
  addExclusion s =
    addExclusion_checked
      (entry_of (exclude_party1 (form s)) (exclude_party2 (form s))) s /\
  Js.falsy (exclude_party1 (form s)) = false /\
  (Js.falsy (exclude_party2 (form s)) = false ->
   exclude_party1 (form s) <> exclude_party2 (form s)).
Proof.
  unfold addExclusion, entry_of.
  destruct (Js.falsy (exclude_party1 (form s))); [discriminate |].
  destruct (Js.falsy (exclude_party2 (form s))).
  - intros _. repeat split. discriminate.
  - destruct (String.eqb_spec (exclude_party1 (form s)) (exclude_party2 (form s)));
      [discriminate |].
    intros _. repeat split. auto.
Qed.

Lemma addExclusion_checked_added (c : Constraint) (s : App) :
  outcome (addExclusion_checked c s) = Added ->
  ~ In (Js.join "-" c) (keys s) /\
  exclusions (after (addExclusion_checked c s)) = exclusions s ++ [c] /\
  inclusions (after (addExclusion_checked c s)) = inclusions s /\
  exclude_party1 (form (after (addExclusion_checked c s))) = "" /\
  exclude_party2 (form (after (addExclusion_checked c s))) = "" /\
  effects (addExclusion_checked c s) =
    RenderExclusions (exclusions s ++ [c])
      :: snd (updateCoalitions (set_exclusions (exclusions s ++ [c]) s)).
Proof.
  unfold addExclusion_checked, keys. cbv zeta.
  match goal with
  | |- context [Js.some ?f (exclusions s)] =>
      destruct (Js.some f (exclusions s)) eqn:He; [discriminate |]
  end.
  match goal with
  | |- context [Js.some ?f (inclusions s)] =>
      destruct (Js.some f (inclusions s)) eqn:Hi; [discriminate |]
  end.
  apply some_join_false in He. apply some_join_false in Hi.
  intros _. split.
  { rewrite map_app, in_app_iff. tauto. }
  pose proof (updateCoalitions_keeps (set_exclusions (exclusions s ++ [c]) s))
    as (_ & Ke & Ki).
  destruct (updateCoalitions (set_exclusions (exclusions s ++ [c]) s)) as [s2 reqs].
  simpl in *. auto.
Qed.

Lemma addInclusion_added (s : App) :
  outcome (addInclusion s) = Added ->
  Js.falsy (include_party1 (form s)) = false /\
  Js.falsy (include_party2 (form s)) = false /\
  include_party1 (form s) <> include_party2 (form s) /\
  ~ In (Js.join "-" (Js.sort [include_party1 (form s); include_party2 (form s)]))
       (keys s) /\
  exclusions (after (addInclusion s)) = exclusions s /\
  inclusions (after (addInclusion s)) =
    inclusions s ++ [Js.sort [include_party1 (form s); include_party2 (form s)]] /\
  include_party1 (form (after (addInclusion s))) = "" /\
  include_party2 (form (after (addInclusion s))) = "" /\
  effects (addInclusion s) =
    RenderInclusions
      (inclusions s ++ [Js.sort [include_party1 (form s); include_party2 (form s)]])
      :: snd (updateCoalitions
                (set_inclusions
                   (inclusions s ++
                    [Js.sort [include_party1 (form s); include_party2 (form s)]]) s)).
Proof.
  unfold addInclusion, keys. cbv zeta.
  destruct (Js.falsy (include_party1 (form s))); [discriminate |].
  destruct (Js.falsy (include_party2 (form s))); [discriminate |].
  simpl orb. cbv iota.
  destruct (String.eqb_spec (include_party1 (form s)) (include_party2 (form s)));
    [discriminate |].
  match goal with
  | |- context [Js.some ?f (inclusions s)] =>
      destruct (Js.some f (inclusions s)) eqn:Hi; [discriminate |]
  end.
  match goal with
  | |- context [Js.some ?f (exclusions s)] =>
      destruct (Js.some f (exclusions s)) eqn:He; [discriminate |]
  end.
  apply some_join_false in He. apply some_join_false in Hi.
  intros _. do 3 (split; [auto |]). split.
  { rewrite map_app, in_app_iff. tauto. }
  match goal with
  | |- context [updateCoalitions ?t] =>
      pose proof (updateCoalitions_keeps t) as (_ & Ke & Ki);
      destruct (updateCoalitions t) as [s2 reqs]
  end.
  simpl in *. auto.
Qed.

Lemma skipn_S_tl {A : Type} (n : nat) (l : list A) :
  skipn (S n) l = tl (skipn n l).
Proof.
  revert l. induction n as [| n IH]; intros [| x l]; simpl; auto.
  rewrite <- IH. reflexivity.
Qed.

(** [splice(index, 1)] removes nothing or takes one element out and keeps
    the rest in order. *)
Lemma splice1_cases {A : Type} (l : list A) (index : Z) :
  Js.splice1 l index = l \/
  exists a x b, l = a ++ x :: b /\ Js.splice1 l index = a ++ b.
Proof.
  unfold Js.splice1.
  set (n := Z.to_nat _).
  rewrite skipn_S_tl.
  pose proof (firstn_skipn n l) as Hl.
  destruct (skipn n l) as [| x b] eqn:E; simpl.
  - left. rewrite app_nil_r in *. exact Hl.
  - right. exists (firstn n l), x, b. auto.
Qed.

Lemma NoDup_map_drop {A B : Type} (f : A -> B) (a b : list A) (x : A) :
  NoDup (map f (a ++ x :: b)) -> NoDup (map f (a ++ b)).
Proof.
  rewrite !map_app. simpl. apply NoDup_remove_1.
Qed.

Lemma keys_after_splice_exclusions (s : App) (index : Z) :
  NoDup (keys s) ->
  NoDup (map (Js.join "-") (Js.splice1 (exclusions s) index ++ inclusions s)).
Proof.
  unfold keys. intros Hnd.
  destruct (splice1_cases (exclusions s) index) as [-> | (a & x & b & Hl & ->)];
    [exact Hnd |].
  rewrite Hl in Hnd. rewrite <- app_assoc in *. simpl in Hnd.
  apply (NoDup_map_drop _ a (b ++ inclusions s) x), Hnd.
Qed.

Lemma keys_after_splice_inclusions (s : App) (index : Z) :
  NoDup (keys s) ->
  NoDup (map (Js.join "-") (exclusions s ++ Js.splice1 (inclusions s) index)).
Proof.
  unfold keys. intros Hnd.
  destruct (splice1_cases (inclusions s) index) as [-> | (a & x & b & Hl & ->)];
    [exact Hnd |].
  rewrite Hl in Hnd. rewrite app_assoc in *.
  apply (NoDup_map_drop _ (exclusions s ++ a) b x), Hnd.
Qed.

Lemma keys_NoDup_call (s : App) (c : Call) :
  NoDup (keys s) -> NoDup (keys (call s c)).
Proof.
  intros Hnd. destruct c as [p1 p2 | p1 p2 | index | index]; simpl.
  - set (t := set_form (set_exclude_fields p1 p2 (form s)) s).
    assert (Hk : keys t = keys s) by reflexivity.
    destruct (outcome (addExclusion t)) eqn:Ho.
    + destruct (addExclusion_lists t) as [Hi He]. rewrite Ho in He.
      unfold keys. rewrite He, Hi. exact Hnd.
    + destruct (addExclusion_entry t Ho) as (Heq & _).
      rewrite Heq in Ho |- *.
      destruct (addExclusion_checked_added _ t Ho) as (Hfresh & He & Hi & _).
      unfold keys. rewrite He, Hi, <- app_assoc. simpl.
      rewrite map_app. simpl.
      apply NoDup_Add with (a := Js.join "-" (entry_of p1 p2))
                           (l := map (Js.join "-") (exclusions s ++ inclusions s)).
      * rewrite map_app. apply Add_app.
      * split; [exact Hnd | exact Hfresh].
  - set (t := set_form (set_include_fields p1 p2 (form s)) s).
    destruct (outcome (addInclusion t)) eqn:Ho.
    + destruct (addInclusion_lists t) as [He Hi]. rewrite Ho in Hi.
      unfold keys. rewrite He, Hi. exact Hnd.
    + destruct (addInclusion_added t Ho) as (_ & _ & _ & Hfresh & He & Hi & _).
      unfold keys. rewrite He, Hi, app_assoc, map_app. simpl.
      apply NoDup_Add with (a := Js.join "-" (Js.sort [p1; p2]))
                           (l := map (Js.join "-") (exclusions s ++ inclusions s)).
      * rewrite <- (app_nil_r (map (Js.join "-") (exclusions s ++ inclusions s))) at 1.
        apply Add_app.
      * split; [exact Hnd | exact Hfresh].
  - unfold removeExclusion. split_updateCoalitions. destruct K as (_ & Ke & Ki).
    unfold keys. rewrite Ke, Ki. apply keys_after_splice_exclusions, Hnd.
  - unfold removeInclusion. split_updateCoalitions. destruct K as (_ & Ke & Ki).
    unfold keys. rewrite Ke, Ki. apply keys_after_splice_inclusions, Hnd.
Qed.

End Entries.

Lemma keys_NoDup_calls (l : list Call) (s : App) :
  NoDup (keys s) -> NoDup (keys (calls s l)).
Proof.
  revert s. induction l as [| c l IH]; intros s Hs; simpl.
  - exact Hs.
  - apply IH, keys_NoDup_call, Hs.
Qed.

Lemma NoDup_map_inv_list {A B : Type} (f : A -> B) (l : list A) :
  NoDup (map f l) -> NoDup l.
Proof.
  induction l as [| x l IH]; simpl; intros Hnd; [constructor |].
  inversion Hnd as [| ? ? Hout Hrest]; subst.
  constructor; [| apply IH, Hrest].
  intros Hin. apply Hout, in_map, Hin.
Qed.

(** X15. Starting from empty lists, after any sequence of add and remove
    calls no two stored entries join to the same string; in particular no
    entry is stored twice in a list and no entry is both an exclusion and
    an inclusion. *)
Theorem no_duplicate_or_conflicting_entries (s0 : App) (l : list Call) :
  exclusions s0 = [] ->
  inclusions s0 = [] ->
  NoDup (keys (calls s0 l)) /\
  NoDup (exclusions (calls s0 l)) /\
  NoDup (inclusions (calls s0 l)) /\
  Forall (fun c => ~ In c (inclusions (calls s0 l))) (exclusions (calls s0 l)).
Proof.
  intros He Hi.
  assert (Hk : NoDup (keys (calls s0 l))).
  { apply keys_NoDup_calls. unfold keys. rewrite He, Hi. constructor. }
  split; [exact Hk |]. unfold keys in Hk.
  apply NoDup_map_inv_list in Hk.
  split; [apply (NoDup_app_remove_r _ _ Hk) |].
  split; [apply (NoDup_app_remove_l _ _ Hk) |].
  rewrite Forall_forall. intros c Hex Hin.
  revert Hk Hex Hin. generalize (exclusions (calls s0 l)) as ex.
  induction ex as [| x ex IH]; simpl; intros Hk Hex Hin; [destruct Hex |].
  inversion Hk as [| ? ? Hout Hrest]; subst.
  destruct Hex as [-> | Hex].
  - apply Hout, in_or_app. right. exact Hin.
  - apply (IH Hrest Hex Hin).
Qed.

Lemma no_duplicate_or_conflicting_entries_witness :
  NoDup (keys (calls (loaded form0 400 400)
     [CallAddExclusion "VVD" "PVV"; CallAddExclusion "PVV" "VVD";
      CallAddInclusion "VVD" "PVV"; CallAddInclusion "D66" "CDA"])).
Proof.
  apply (no_duplicate_or_conflicting_entries (loaded form0 400 400)); reflexivity.
Defined.

(** X16. The order of selection does not matter: choosing two parties in
    the one or the other order gives the same outcome, the same alerts and
    requests, and the same two lists, for addExclusion (both dropdowns
    set) and for addInclusion. *)
Theorem selection_order_is_irrelevant (s : App) (p1 p2 : string) :
  Js.falsy p1 = false -> Js.falsy p2 = false ->
  (outcome (addExclusion (select_exclude p1 p2 s)) =
     outcome (addExclusion (select_exclude p2 p1 s)) /\
   effects (addExclusion (select_exclude p1 p2 s)) =
     effects (addExclusion (select_exclude p2 p1 s)) /\
   exclusions (after (addExclusion (select_exclude p1 p2 s))) =
     exclusions (after (addExclusion (select_exclude p2 p1 s))) /\
   inclusions (after (addExclusion (select_exclude p1 p2 s))) =
     inclusions (after (addExclusion (select_exclude p2 p1 s)))) /\
  (outcome (addInclusion (select_include p1 p2 s)) =
     outcome (addInclusion (select_include p2 p1 s)) /\
   effects (addInclusion (select_include p1 p2 s)) =
     effects (addInclusion (select_include p2 p1 s)) /\
   exclusions (after (addInclusion (select_include p1 p2 s))) =
     exclusions (after (addInclusion (select_include p2 p1 s))) /\
   inclusions (after (addInclusion (select_include p1 p2 s))) =
     inclusions (after (addInclusion (select_include p2 p1 s)))).
Proof.
  intros H1 H2.
  unfold addExclusion, addExclusion_checked, addInclusion, select_exclude,
    select_include, updateCoalitions.
  simpl. rewrite H1, H2. simpl.
  rewrite (String.eqb_sym p2 p1).
  destruct (String.eqb_spec p1 p2) as [Heq | Hne]; simpl; [auto |].
  pose proof (sort_pair_sym p1 p2 Hne) as Hs.
  unfold Js.sort in Hs. simpl in Hs. rewrite <- Hs.
  split.
  - do 2 (match goal with
          | |- context [Js.some ?f ?l] => destruct (Js.some f l); simpl; auto
          end).
    match goal with |- context [Js.gt ?a ?b] => destruct (Js.gt a b) end;
      simpl; auto.
  - do 2 (match goal with
          | |- context [Js.some ?f ?l] => destruct (Js.some f l); simpl; auto
          end).
    match goal with |- context [Js.gt ?a ?b] => destruct (Js.gt a b) end;
      simpl; auto.
Qed.

Lemma selection_order_is_irrelevant_witness :
  exclusions (after (addExclusion (select_exclude "VVD" "PVV" (loaded form0 400 400)))) =
  exclusions (after (addExclusion (select_exclude "PVV" "VVD" (loaded form0 400 400)))).
Proof.
  destruct (selection_order_is_irrelevant (loaded form0 400 400) "VVD" "PVV"
              eq_refl eq_refl) as ((_ & _ & H & _) & _).
  exact H.
Defined.

Section AddRemove.

Lemma splice1_last {A : Type} (l : list A) (c : A) :
  Js.splice1 (l ++ [c]) (Z.of_nat (List.length l)) = l.
Proof.
  unfold Js.splice1. rewrite length_app. cbn [List.length].
  destruct (Z.ltb_spec (Z.of_nat (List.length l)) 0) as [Hneg | _]; [lia |].
  rewrite Z.min_l by lia. rewrite Nat2Z.id.
  rewrite (skipn_all2 (n := S (List.length l)))
    by (rewrite length_app; cbn [List.length]; lia).
  rewrite app_nil_r, firstn_app, Nat.sub_diag, firstn_all.
  cbn [firstn]. apply app_nil_r.
Qed.

Lemma splice1_beyond {A : Type} (l : list A) (index : Z) :
  Z.of_nat (List.length l) <= index -> Js.splice1 l index = l.
Proof.
  intros Hge. unfold Js.splice1.
  destruct (Z.ltb_spec index 0) as [Hneg | _]; [lia |].
  rewrite Z.min_r by lia. rewrite Nat2Z.id.
  rewrite firstn_all, skipn_all2 by lia. apply app_nil_r.
Qed.

Lemma splice1_inside {A : Type} (l : list A) (index : Z) :
  0 <= index < Z.of_nat (List.length l) ->
  exists a x b,
    l = a ++ x :: b /\ List.length a = Z.to_nat index /\
    Js.splice1 l index = a ++ b.
Proof.
  intros [Hlo Hhi]. unfold Js.splice1.
  destruct (Z.ltb_spec index 0) as [Hneg | _]; [lia |].
  rewrite Z.min_l by lia.
  set (n := Z.to_nat index).
  assert (Hn : (n < List.length l)%nat) by (unfold n; lia).
  rewrite skipn_S_tl.
  pose proof (firstn_skipn n l) as Hl.
  destruct (skipn n l) as [| x b] eqn:E.
  - exfalso. apply (f_equal (@List.length A)) in E.
    rewrite length_skipn in E. simpl in E. lia.
  - exists (firstn n l), x, b. simpl. repeat split; auto.
    rewrite length_firstn. lia.
Qed.

End AddRemove.

(** X17. Removing what was just added restores the list: after a
    successful addExclusion, removeExclusion with the index the new entry
    is displayed with gives back the exclusions as they were and leaves the
    inclusions alone; likewise for addInclusion and removeInclusion. *)
Theorem remove_undoes_add (s : App) :
  (outcome (addExclusion s) = Added ->
   exclusions (fst (removeExclusion (Z.of_nat (List.length (exclusions s)))
                                    (after (addExclusion s)))) = exclusions s /\
   inclusions (fst (removeExclusion (Z.of_nat (List.length (exclusions s)))
                                    (after (addExclusion s)))) = inclusions s) /\
  (outcome (addInclusion s) = Added ->
   inclusions (fst (removeInclusion (Z.of_nat (List.length (inclusions s)))
                                    (after (addInclusion s)))) = inclusions s /\
   exclusions (fst (removeInclusion (Z.of_nat (List.length (inclusions s)))
                                    (after (addInclusion s)))) = exclusions s).
Proof.
  split; intros Ho.
  - destruct (addExclusion_lists s) as [Hi He]. rewrite Ho in He.
    destruct He as (c & _ & He).
    unfold removeExclusion. split_updateCoalitions. destruct K as (_ & Ke & Ki).
    rewrite Ke, Ki, He, Hi, splice1_last. auto.
  - destruct (addInclusion_lists s) as [He Hi]. rewrite Ho in Hi.
    destruct Hi as (c & _ & Hi).
    unfold removeInclusion. split_updateCoalitions. destruct K as (_ & Ke & Ki).
    rewrite Ke, Ki, He, Hi, splice1_last. auto.
Qed.

Lemma remove_undoes_add_witness :
  exclusions (fst (removeExclusion 1
     (after (addExclusion (select_exclude "SP" "" busy))))) = exclusions busy.
Proof.
  destruct (remove_undoes_add (select_exclude "SP" "" busy)) as [H _].
  apply H. reflexivity.
Defined.

(** X18. removeExclusion takes out exactly the entry at the index it is
    given and keeps the others in order; with an index at or past the end
    of the list it removes nothing; it never touches the inclusions. The
    same holds for removeInclusion with the two lists exchanged. *)
Theorem remove_takes_one_entry (s : App) (index : Z) :
  (inclusions (fst (removeExclusion index s)) = inclusions s /\
   exclusions (fst (removeInclusion index s)) = exclusions s) /\
  (Z.of_nat (List.length (exclusions s)) <= index ->
   exclusions (fst (removeExclusion index s)) = exclusions s) /\
  (Z.of_nat (List.length (inclusions s)) <= index ->
   inclusions (fst (removeInclusion index s)) = inclusions s) /\
  (0 <= index < Z.of_nat (List.length (exclusions s)) ->
   exists a x b,
     exclusions s = a ++ x :: b /\ List.length a = Z.to_nat index /\
     exclusions (fst (removeExclusion index s)) = a ++ b) /\
  (0 <= index < Z.of_nat (List.length (inclusions s)) ->
   exists a x b,
     inclusions s = a ++ x :: b /\ List.length a = Z.to_nat index /\
     inclusions (fst (removeInclusion index s)) = a ++ b).
Proof.
  unfold removeExclusion, removeInclusion.
  pose proof (updateCoalitions_keeps
                (set_exclusions (Js.splice1 (exclusions s) index) s))
    as (_ & Ke & Ki).
  pose proof (updateCoalitions_keeps
                (set_inclusions (Js.splice1 (inclusions s) index) s))
    as (_ & Ke' & Ki').
  destruct (updateCoalitions (set_exclusions (Js.splice1 (exclusions s) index) s)).
  destruct (updateCoalitions (set_inclusions (Js.splice1 (inclusions s) index) s)).
  simpl in *. rewrite Ke, Ki, Ke', Ki'.
  split; [auto |].
  split; [apply splice1_beyond |].
  split; [apply splice1_beyond |].
  split; apply splice1_inside.
Qed.

Lemma remove_takes_one_entry_witness :
  exclusions (fst (removeExclusion 7 busy)) = exclusions busy /\
  exists a x b,
    exclusions busy = a ++ x :: b /\ List.length a = 0%nat /\
    exclusions (fst (removeExclusion 0 busy)) = a ++ b.
Proof.
  destruct (remove_takes_one_entry busy 7) as (_ & H7 & _).
  destruct (remove_takes_one_entry busy 0) as (_ & _ & _ & H0 & _).
  split; [apply H7; simpl; lia | apply H0; simpl; lia].
Defined.

(** X19. When addExclusion accepts a proposal, the entry appended names
    exactly the selected parties, the inclusions stay, both exclude
    dropdowns are reset to empty, the list is redrawn and, unless the
    party-count range is inverted, the coalition query sent carries the
    list with the new entry; likewise for addInclusion. *)
Theorem accepted_proposal_is_stored_and_sent (s : App) :
  (outcome (addExclusion s) = Added ->
   exists entry,
     same_names entry (proposal (exclude_party1 (form s)) (exclude_party2 (form s))) /\
     exclusions (after (addExclusion s)) = exclusions s ++ [entry] /\
     inclusions (after (addExclusion s)) = inclusions s /\
     exclude_party1 (form (after (addExclusion s))) = "" /\
     exclude_party2 (form (after (addExclusion s))) = "" /\
     (Js.gt (min_parties (form s)) (max_parties (form s)) = false ->
      effects (addExclusion s) =
        [RenderExclusions (exclusions s ++ [entry]);
         FetchCoalitions (min_parties (form s)) (max_parties (form s))
                         (exclusions s ++ [entry]) (inclusions s)])) /\
  (outcome (addInclusion s) = Added ->
   exists entry,
     same_names entry [include_party1 (form s); include_party2 (form s)] /\
     inclusions (after (addInclusion s)) = inclusions s ++ [entry] /\
     exclusions (after (addInclusion s)) = exclusions s /\
     include_party1 (form (after (addInclusion s))) = "" /\
     include_party2 (form (after (addInclusion s))) = "" /\
     (Js.gt (min_parties (form s)) (max_parties (form s)) = false ->
      effects (addInclusion s) =
        [RenderInclusions (inclusions s ++ [entry]);
         FetchCoalitions (min_parties (form s)) (max_parties (form s))
                         (exclusions s) (inclusions s ++ [entry])])).
Proof.
  split; intros Ho.
  - destruct (addExclusion_entry s Ho) as (Heq & H1 & Hne).
    rewrite Heq in Ho |- *.
    destruct (addExclusion_checked_added _ s Ho) as (_ & He & Hi & F1 & F2 & Heff).
    exists (entry_of (exclude_party1 (form s)) (exclude_party2 (form s))).
    split.
    { unfold entry_of, proposal.
      destruct (Js.falsy (exclude_party2 (form s))); [intro n; tauto |].
      apply sort_pair_valid, Hne. reflexivity. }
    do 4 (split; [assumption |]).
    intros Hgt. rewrite Heff. unfold updateCoalitions. simpl. rewrite Hgt.
    reflexivity.
  - destruct (addInclusion_added s Ho)
      as (_ & _ & Hne & _ & He & Hi & F1 & F2 & Heff).
    exists (Js.sort [include_party1 (form s); include_party2 (form s)]).
    split; [apply sort_pair_valid, Hne |].
    do 4 (split; [assumption |]).
    intros Hgt. rewrite Heff. unfold updateCoalitions. simpl. rewrite Hgt.
    reflexivity.
Qed.

Lemma accepted_proposal_is_stored_and_sent_witness :
  exists entry,
    same_names entry ["VVD"; "D66"] /\
    inclusions (after (addInclusion (select_include "VVD" "D66" busy))) =
      inclusions busy ++ [entry].
Proof.
  destruct (accepted_proposal_is_stored_and_sent (select_include "VVD" "D66" busy))
    as [_ H].
  destruct (H eq_refl) as (entry & H1 & H2 & _).
  exists entry. split; [exact H1 | exact H2].
Defined.

(** X20. An accepted proposal cannot be entered again: after addExclusion
    has stored it, the same selection is rejected as already existing, and
    the same selection as an inclusion is rejected as already set as an
    exclusion. *)
Theorem accepted_proposal_is_rejected_again (s : App) (p1 p2 : string) :
  outcome (addExclusion (select_exclude p1 p2 s)) = Added ->
  effects (addExclusion (select_exclude p1 p2
             (after (addExclusion (select_exclude p1 p2 s))))) =
    [Alert "This exclusion already exists"] /\
  outcome (addExclusion (select_exclude p1 p2
             (after (addExclusion (select_exclude p1 p2 s))))) = Rejected /\
  (Js.falsy p2 = false ->
   effects (addInclusion (select_include p1 p2
              (after (addExclusion (select_exclude p1 p2 s))))) =
     [Alert "These parties are already set as exclusions"] /\
   outcome (addInclusion (select_include p1 p2
              (after (addExclusion (select_exclude p1 p2 s))))) = Rejected).
Proof.
  intros Ho.
  set (t := select_exclude p1 p2 s) in *.
  destruct (addExclusion_entry t Ho) as (Heq & H1 & Hne).
  change (exclude_party1 (form t)) with p1 in *.
  change (exclude_party2 (form t)) with p2 in *.
  rewrite Heq in Ho.
  destruct (addExclusion_checked_added _ t Ho) as (Hfresh & He & Hi & _).
  rewrite <- Heq in He, Hi.
  set (u := after (addExclusion t)) in *.
  assert (Hin : In (Js.join "-" (entry_of p1 p2))
                   (map (Js.join "-") (exclusions u))).
  { rewrite He, map_app. apply in_or_app. right. left. reflexivity. }
  assert (Hout : ~ In (Js.join "-" (entry_of p1 p2))
                      (map (Js.join "-") (inclusions u))).
  { rewrite Hi. intros H. apply Hfresh. unfold keys.
    rewrite map_app. apply in_or_app. right. exact H. }
  apply some_join_true in Hin. apply some_join_false in Hout.
  assert (Hex : addExclusion (select_exclude p1 p2 u) =
                mkResult Rejected (select_exclude p1 p2 u)
                         [Alert "This exclusion already exists"]).
  { unfold addExclusion, addExclusion_checked. cbv zeta.
    change (exclude_party1 (form (select_exclude p1 p2 u))) with p1.
    change (exclude_party2 (form (select_exclude p1 p2 u))) with p2.
    change (exclusions (select_exclude p1 p2 u)) with (exclusions u).
    rewrite H1. unfold entry_of in Hin.
    destruct (Js.falsy p2) eqn:F2.
    - rewrite Hin. reflexivity.
    - destruct (String.eqb_spec p1 p2) as [E | _]; [exfalso; apply Hne; auto |].
      rewrite Hin. reflexivity. }
  rewrite Hex. split; [reflexivity |]. split; [reflexivity |].
  intros F2.
  assert (Hinc : addInclusion (select_include p1 p2 u) =
                 mkResult Rejected (select_include p1 p2 u)
                          [Alert "These parties are already set as exclusions"]).
  { unfold addInclusion. cbv zeta.
    change (include_party1 (form (select_include p1 p2 u))) with p1.
    change (include_party2 (form (select_include p1 p2 u))) with p2.
    change (exclusions (select_include p1 p2 u)) with (exclusions u).
    change (inclusions (select_include p1 p2 u)) with (inclusions u).
    rewrite H1, F2. simpl orb. cbv iota.
    unfold entry_of in Hin, Hout. rewrite F2 in Hin, Hout.
    destruct (String.eqb_spec p1 p2) as [E | _]; [exfalso; apply Hne; auto |].
    rewrite Hout, Hin. reflexivity. }
  rewrite Hinc. split; reflexivity.
Qed.

Lemma accepted_proposal_is_rejected_again_witness :
  outcome (addExclusion (select_exclude "SP" "PvdD"
             (after (addExclusion (select_exclude "SP" "PvdD" busy))))) = Rejected.
Proof.
  destruct (accepted_proposal_is_rejected_again busy "SP" "PvdD" eq_refl)
    as (_ & H & _).
  exact H.
Defined.

(** ** Circles, counter and chart *)

(** X21. With all roster coordinates within [-1, 1], every circle
    updateSpectrum draws lies inside the padded area of the frame it draws
    around them, provided the frame is wider and higher than 100 pixels;
    that includes the 400 by 400 frame used while the container has no
    size. *)
Theorem circles_inside_frame (s : App) :
  Forall (fun p => (-1 <= economic p <= 1)%Q /\ (-1 <= social p <= 1)%Q) (parties s) ->
  (100 < fst (viewBox (spectrumFrame s)))%Q ->
  (100 < snd (viewBox (spectrumFrame s)))%Q ->
  Forall (fun c => in_padded_area (fst (viewBox (spectrumFrame s)))
                                  (snd (viewBox (spectrumFrame s)))
                                  (style_left c, style_top c))
         (updateSpectrum s).
Proof.
  intros Hps. unfold spectrumFrame, updateSpectrum.
  rewrite Forall_forall in Hps.
  destruct (Qeq_bool (offsetWidth s) 0 || Qeq_bool (offsetHeight s) 0);
    cbn [createSVGElements viewBox fst snd]; intros Hw Hh;
    rewrite Forall_forall; intros c Hc;
    apply in_flat_map in Hc as (p & Hp & Hc);
    (destruct (seats p =? 0); [destruct Hc |]);
    destruct (Hps p Hp) as [He Hs];
    match type of Hc with
    | In _ (let '(_, _) := spectrumPosition ?w ?h _ _ in _) =>
        pose proof (spectrumPosition_inside w h _ _ He Hs Hw Hh) as Hin;
        destruct (spectrumPosition w h (economic p) (social p)) as [x y]
    end;
    destruct Hc as [<- | []]; exact Hin.
Qed.

Lemma circles_inside_frame_witness :
  Forall (fun c => in_padded_area 400 400 (style_left c, style_top c))
         (updateSpectrum chamber150).
Proof.
  apply (circles_inside_frame chamber150).
  - repeat constructor; cbn [economic social]; unfold Qle; simpl; lia.
  - cbn. lra.
  - cbn. lra.
Defined.

Section Counter.

Lemma checked_seats_mono (ps : list Party) (sel sel' : list string) :
  Forall (fun p => 0 <= seats p) ps ->
  incl sel sel' ->
  checked_seats ps sel <= checked_seats ps sel'.
Proof.
  intros Hpos Hincl. induction Hpos as [| p ps Hp Hps IH]; simpl; [lia |].
  destruct (in_dec string_dec (name p) sel) as [Hin | _];
    destruct (in_dec string_dec (name p) sel') as [_ | Hout]; try lia.
  exfalso. apply Hout, Hincl, Hin.
Qed.

Lemma checked_seats_le_total (ps : list Party) (sel : list string) :
  Forall (fun p => 0 <= seats p) ps ->
  checked_seats ps sel <= totalSeats ps.
Proof.
  unfold totalSeats. intros Hpos.
  induction Hpos as [| p ps Hp Hps IH]; simpl; [lia |].
  rewrite fold_seats_acc.
  destruct (in_dec string_dec (name p) sel); lia.
Qed.

End Counter.

(** X22. With non-negative seat counts, checking more parties never lowers
    the displayed seat count and never takes the majority mark away. *)
Theorem counter_is_monotone (ps : list Party) (sel sel' : list string) :
  Forall (fun p => 0 <= seats p) ps ->
  incl sel sel' ->
  displayed_seats (coalitionInfo ps sel) <= displayed_seats (coalitionInfo ps sel') /\
  (reports_majority (coalitionInfo ps sel) = true ->
   reports_majority (coalitionInfo ps sel') = true).
Proof.
  intros Hpos Hincl.
  pose proof (checked_seats_mono ps sel sel' Hpos Hincl) as Hle.
  rewrite <- !coalitionSeats_checked in Hle.
  rewrite !displayed_seats_coalitionInfo, !reports_majority_coalitionInfo.
  split; lia.
Qed.

Lemma counter_is_monotone_witness :
  displayed_seats (coalitionInfo (parties chamber150) ["A"]) <=
  displayed_seats (coalitionInfo (parties chamber150) ["C"; "A"]).
Proof.
  apply (counter_is_monotone (parties chamber150) ["A"] ["C"; "A"]).
  - repeat constructor; simpl; lia.
  - intros n [<- | []]. right. left. reflexivity.
Defined.

(** X23. With non-negative seat counts the displayed seat count never
    exceeds the total of the roster, so in a roster of fewer than 76 seats
    no selection is ever marked as a majority, and the shortfall shown with
    a selection that is not a majority is what it lacks to reach 76. *)
Theorem counter_is_bounded (ps : list Party) (sel : list string) :
  Forall (fun p => 0 <= seats p) ps ->
  displayed_seats (coalitionInfo ps sel) <= totalSeats ps /\
  (totalSeats ps < 76 -> reports_majority (coalitionInfo ps sel) = false) /\
  (reports_majority (coalitionInfo ps sel) = false ->
   exists needed,
     coalitionInfo ps sel = NeededInfo (coalitionSeats ps sel) needed /\
     0 < needed /\ coalitionSeats ps sel + needed = 76).
Proof.
  intros Hpos.
  pose proof (checked_seats_le_total ps sel Hpos) as Hle.
  rewrite <- coalitionSeats_checked in Hle.
  rewrite displayed_seats_coalitionInfo.
  split; [exact Hle |]. split.
  - intros Hsmall. apply Bool.not_true_is_false.
    rewrite reports_majority_coalitionInfo. lia.
  - unfold coalitionInfo.
    destruct (Z.leb_spec 76 (coalitionSeats ps sel)); simpl; [discriminate |].
    intros _. exists (76 - coalitionSeats ps sel). split; [reflexivity | lia].
Qed.

Lemma counter_is_bounded_witness :
  displayed_seats (coalitionInfo (parties with_seatless) ["VVD"; "D66"]) <=
    totalSeats (parties with_seatless) /\
  reports_majority (coalitionInfo (parties with_seatless) ["VVD"; "D66"]) = false.
Proof.
  assert (Hpos : Forall (fun p => 0 <= seats p) (parties with_seatless))
    by (repeat constructor; simpl; lia).
  destruct (counter_is_bounded (parties with_seatless) ["VVD"; "D66"] Hpos)
    as (H1 & H2 & _).
  split; [exact H1 | apply H2; vm_compute; reflexivity].
Defined.

Section ChartOrder.

Lemma insert_by_perm {A : Type} (cmp : A -> A -> Z) (x : A) (l : list A) :
  Permutation (insert_by cmp x l) (x :: l).
Proof.
  induction l as [| y l IH]; simpl; [apply Permutation_refl |].
  destruct (cmp x y <=? 0); [apply Permutation_refl |].
  apply perm_trans with (y :: x :: l); [apply perm_skip, IH | apply perm_swap].
Qed.

Lemma sort_by_perm {A : Type} (cmp : A -> A -> Z) (l : list A) :
  Permutation (sort_by cmp l) l.
Proof.
  induction l as [| x l IH]; simpl; [apply Permutation_refl |].
  apply perm_trans with (x :: sort_by cmp l);
    [apply insert_by_perm | apply perm_skip, IH].
Qed.

Lemma sort_by_map {A B : Type} (g : A -> B)
      (cmp : A -> A -> Z) (cmp' : B -> B -> Z) (l : list A) :
  (forall a b, cmp a b = cmp' (g a) (g b)) ->
  map g (sort_by cmp l) = sort_by cmp' (map g l).
Proof.
  intros Hcmp. induction l as [| x l IH]; simpl; [reflexivity |].
  rewrite <- IH. generalize (sort_by cmp l) as sorted.
  induction sorted as [| y sorted IHs]; simpl; [reflexivity |].
  rewrite <- Hcmp. destruct (cmp x y <=? 0); simpl; [reflexivity |].
  rewrite IHs. reflexivity.
Qed.

Lemma insert_by_seats_sorted (x : Party) (l : list Party) :
  Sorted (fun a b => seats b <= seats a) l ->
  Sorted (fun a b => seats b <= seats a)
         (insert_by (fun a b => seats b - seats a) x l).
Proof.
  induction l as [| y l IH]; intros Hs; simpl.
  - constructor; constructor.
  - destruct (Z.leb_spec (seats y - seats x) 0) as [Hle | Hgt].
    + constructor; [exact Hs | constructor; lia].
    + inversion Hs as [| ? ? Hrest Hhd]; subst.
      constructor; [apply IH, Hrest |].
      destruct l as [| z l]; simpl.
      * constructor. lia.
      * destruct (seats z - seats x <=? 0); constructor; [lia |].
        inversion Hhd; subst. assumption.
Qed.

Lemma sortedParties_sorted (ps : list Party) :
  Sorted (fun a b => seats b <= seats a) (sortedParties ps).
Proof.
  unfold sortedParties. induction ps as [| p ps IH]; simpl.
  - constructor.
  - apply insert_by_seats_sorted, IH.
Qed.

Lemma Sorted_map_seats (l : list Party) :
  Sorted (fun a b => seats b <= seats a) l ->
  Sorted (fun a b => b <= a) (map seats l).
Proof.
  induction 1 as [| p l Hs IH Hhd]; simpl; constructor; [exact IH |].
  destruct Hhd; simpl; constructor. assumption.
Qed.

End ChartOrder.

(** X24. The bars of the seat chart are the parties of the roster, each
    exactly once, ordered from the most seats to the fewest; labels, values
    and colours run in the same order. *)
Theorem chart_is_roster_by_seats (ps : list Party) :
  Permutation (labels (initializeChart ps)) (map label_of ps) /\
  Sorted (fun a b => b <= a) (data (initializeChart ps)) /\
  map snd (labels (initializeChart ps)) = data (initializeChart ps) /\
  map rgb (backgroundColor (initializeChart ps)) =
    map (fun p => getPartyColor (economic p)) (sortedParties ps) /\
  map fst (labels (initializeChart ps)) = map name (sortedParties ps).
Proof.
  unfold initializeChart. cbn [labels data backgroundColor].
  split; [| split; [| split; [| split]]].
  - apply (Permutation_map label_of). apply sort_by_perm.
  - apply Sorted_map_seats, sortedParties_sorted.
  - rewrite map_map. reflexivity.
  - rewrite map_map. reflexivity.
  - rewrite map_map. reflexivity.
Qed.

(** X25. After a position update that leaves names and seats as they
    were, updateChart restyles the right bars: labels and values stay, and
    bar by bar the colour is opaque, the border black and 3 wide exactly
    when the party of that bar's label is checked, faded, white and 1 wide
    otherwise. *)
Theorem highlight_follows_bars (s : App) (ps0 : list Party) :
  map label_of (parties s) = map label_of ps0 ->
  labels (updateChart s (initializeChart ps0)) = labels (initializeChart ps0) /\
  data (updateChart s (initializeChart ps0)) = data (initializeChart ps0) /\
  map highlighted (backgroundColor (updateChart s (initializeChart ps0))) =
    map (fun l => Js.includes (checked s) (fst l)) (labels (initializeChart ps0)) /\
  borderColor (updateChart s (initializeChart ps0)) =
    EachBar (map (fun l => if Js.includes (checked s) (fst l)
                           then "#000" else "#fff")
                 (labels (initializeChart ps0))) /\
  borderWidth (updateChart s (initializeChart ps0)) =
    EachBar (map (fun l => if Js.includes (checked s) (fst l) then 3 else 1)
                 (labels (initializeChart ps0))).
Proof.
  intros Hsame.
  assert (Hlabels : map label_of (sortedParties (parties s)) =
                    map label_of (sortedParties ps0)).
  { unfold sortedParties.
    rewrite !(sort_by_map label_of _ (fun a b => snd b - snd a))
      by reflexivity.
    rewrite Hsame. reflexivity. }
  unfold updateChart, initializeChart.
  cbn [labels data backgroundColor borderColor borderWidth].
  split; [reflexivity |]. split; [reflexivity |].
  change (map (fun p => (name p, seats p)) (sortedParties ps0))
    with (map label_of (sortedParties ps0)).
  rewrite <- Hlabels, !map_map. unfold label_of. cbn [fst].
  split; [| split; reflexivity].
  apply map_ext. intros p. unfold highlighted.
  destruct (Js.includes (checked s) (name p)); reflexivity.
Qed.

Lemma highlight_follows_bars_witness :
  map highlighted
      (backgroundColor (updateChart chamber150 (initializeChart (parties chamber150)))) =
  map (fun l => Js.includes (checked chamber150) (fst l))
      (labels (initializeChart (parties chamber150))).
Proof.
  destruct (highlight_follows_bars chamber150 (parties chamber150) eq_refl)
    as (_ & _ & H & _).
  exact H.
Defined.
